(** * goman: a man page parsing library, verified against its specification

    Shallow embedding of the roff scanning and section extraction engine of
    [enferex/goman].  Two revisions of the library are in the source tree:

    - [src/goman.go]              (module [GomanGo] below), and
    - [src/unnamed/part_003]      (module [Part003] below), the revision
      that carries the licence header and returns errors from [NewManPage].

    The macro scanner and the section locator are the same in both and are
    embedded once.  Go strings are byte sequences and are modelled as
    [list ascii]; Go [int] offsets are indices into the document (never
    negative, bounded by [len(data)]) and are modelled as [nat], the [-1] and
    [nil] results of the library functions as [None]. *)

From Stdlib Require Import Ascii String Bool Arith PeanoNat Lia List Sorted.
Import ListNotations.
Open Scope string_scope.
Open Scope nat_scope.
Open Scope list_scope.
Open Scope bool_scope.

(** ** Go strings *)

Definition gostring : Type := list ascii.

Definition str (s : string) : gostring := list_ascii_of_string s.

Definition LF : ascii := "010"%char.
Definition CR : ascii := "013"%char.
Definition SP : ascii := " "%char.

(** A document given line by line: the lines joined by ["\n"]. *)
Fixpoint unlines (ls : list string) : gostring :=
  match ls with
  | [] => []
  | [l] => str l
  | l :: ls' => str l ++ LF :: unlines ls'
  end.

(** ** Run-time faults

    A Go slice expression [s[lo:hi]] and an index expression [s[i]] panic when
    out of range.  Loops are embedded with fuel; [OutOfFuel] is the result of a
    loop that did not finish within its fuel. *)

Inductive panic_kind : Type :=
| SliceBounds   (* slice bounds out of range *)
| IndexRange.   (* index out of range *)

Inductive result (A : Type) : Type :=
| Ok (a : A)
| Panic (k : panic_kind)
| OutOfFuel.

Arguments Ok {A} a.
Arguments Panic {A} k.
Arguments OutOfFuel {A}.

Definition bind {A B : Type} (r : result A) (k : A -> result B) : result B :=
  match r with
  | Ok a => k a
  | Panic p => Panic p
  | OutOfFuel => OutOfFuel
  end.

Notation "x <- e ;; k" := (bind e (fun x => k))
  (at level 61, e at next level, right associativity).

(** [s[lo:hi]] *)
Definition slice (s : gostring) (lo hi : nat) : result gostring :=
  if (lo <=? hi) && (hi <=? length s)
  then Ok (firstn (hi - lo) (skipn lo s))
  else Panic SliceBounds.

(** [s[lo:]] *)
Definition slice_from (s : gostring) (lo : nat) : result gostring :=
  slice s lo (length s).

(** [s[i]] *)
Definition index_at (s : gostring) (i : nat) : result ascii :=
  match nth_error s i with
  | Some c => Ok c
  | None => Panic IndexRange
  end.

(** [l[i]] on a slice of strings *)
Definition index_at_list (l : list gostring) (i : nat) : result gostring :=
  match nth_error l i with
  | Some x => Ok x
  | None => Panic IndexRange
  end.

(** ** Package [strings] *)

Module strings.

Definition mem (c : ascii) (cutset : gostring) : bool :=
  existsb (Ascii.eqb c) cutset.

(** [strings.Split(s, sep)] for a one-byte separator (the callers pass
    ["\n"] and [" "]): always at least one piece. *)
Fixpoint Split (s : gostring) (sep : ascii) : list gostring :=
  match s with
  | [] => [[]]
  | c :: s' =>
      if Ascii.eqb c sep then [] :: Split s' sep
      else match Split s' sep with
           | [] => [[c]]
           | l :: ls => (c :: l) :: ls
           end
  end.

(** [strings.TrimLeft(s, cutset)], ASCII cutset *)
Fixpoint TrimLeft (s cutset : gostring) : gostring :=
  match s with
  | [] => []
  | c :: s' => if mem c cutset then TrimLeft s' cutset else s
  end.

(** [strings.TrimRight(s, cutset)], ASCII cutset *)
Definition TrimRight (s cutset : gostring) : gostring :=
  rev (TrimLeft (rev s) cutset).

(** [strings.Trim(s, cutset)] *)
Definition Trim (s cutset : gostring) : gostring :=
  TrimRight (TrimLeft s cutset) cutset.

(** [strings.Index(s, c)] for a one-byte needle; [None] is Go's [-1]. *)
Fixpoint Index (s : gostring) (c : ascii) : option nat :=
  match s with
  | [] => None
  | x :: s' => if Ascii.eqb x c then Some 0 else option_map S (Index s' c)
  end.

(** [strings.IndexAny(s, chars)], ASCII [chars]; [None] is Go's [-1]. *)
Fixpoint IndexAny (s chars : gostring) : option nat :=
  match s with
  | [] => None
  | x :: s' => if mem x chars then Some 0 else option_map S (IndexAny s' chars)
  end.

(** [unicode.IsSpace] on the UTF-8 encoding.  ASCII: tab, LF, VT, FF, CR,
    space.  Two bytes: U+0085 (C2 85), U+00A0 (C2 A0).  Three bytes: U+1680
    (E1 9A 80), U+2000..U+200A, U+2028, U+2029, U+202F (E2 80 xx), U+205F
    (E2 81 9F), U+3000 (E3 80 80). *)
Definition space1 (b : nat) : bool :=
  ((9 <=? b) && (b <=? 13)) || (b =? 32).

Definition space2 (b0 b1 : nat) : bool :=
  (b0 =? 194) && ((b1 =? 133) || (b1 =? 160)).

Definition space3 (b0 b1 b2 : nat) : bool :=
  ((b0 =? 225) && (b1 =? 154) && (b2 =? 128))
  || ((b0 =? 226) && (b1 =? 128)
      && (((128 <=? b2) && (b2 <=? 138))
          || (b2 =? 168) || (b2 =? 169) || (b2 =? 175)))
  || ((b0 =? 226) && (b1 =? 129) && (b2 =? 159))
  || ((b0 =? 227) && (b1 =? 128) && (b2 =? 128)).

(** The number of bytes of the white space rune the string starts with,
    [0] when it starts with none. *)
Definition space_width (s : gostring) : nat :=
  match map nat_of_ascii (firstn 3 s) with
  | [] => 0
  | b0 :: t =>
      if space1 b0 then 1
      else match t with
           | [] => 0
           | b1 :: t' =>
               if space2 b0 b1 then 2
               else match t' with
                    | [] => 0
                    | b2 :: _ => if space3 b0 b1 b2 then 3 else 0
                    end
           end
  end.

(** The same for the rune the string ends with, given the reversed string
    (the encodings read backwards). *)
Definition space_width_rev (r : gostring) : nat :=
  match map nat_of_ascii (firstn 3 r) with
  | [] => 0
  | b0 :: t =>
      if space1 b0 then 1
      else match t with
           | [] => 0
           | b1 :: t' =>
               if space2 b1 b0 then 2
               else match t' with
                    | [] => 0
                    | b2 :: _ => if space3 b2 b1 b0 then 3 else 0
                    end
           end
  end.

Fixpoint trim_runes (width : gostring -> nat) (fuel : nat) (s : gostring)
  : gostring :=
  match fuel with
  | 0 => s
  | S fuel' =>
      match width s with
      | 0 => s
      | w => trim_runes width fuel' (skipn w s)
      end
  end.

(** [strings.TrimSpace(s)]: leading and trailing white space runes removed. *)
Definition TrimSpace (s : gostring) : gostring :=
  let l := trim_runes space_width (length s) s in
  rev (trim_runes space_width_rev (length l) (rev l)).

(** [strings.NewReplacer("\x0D", "").Replace(s)] *)
Definition ReplaceCR (s : gostring) : gostring :=
  filter (fun c => negb (Ascii.eqb c CR)) s.

End strings.

(** ** Package [regexp]

    Every pattern of the library is compiled with [regexp.MustCompilePOSIX]
    and has the shape [^body]: POSIX syntax makes [^] match at the beginning of
    the text and after every ["\n"], and the match is the leftmost one and,
    there, the longest.  A compiled pattern is represented by its [body].  The
    bodies are ASCII, so matching bytes is matching runes. *)

Module regexp.

Inductive regex : Type :=
| Void                         (* matches nothing *)
| Eps                          (* the empty string *)
| Chr (c : ascii)              (* a literal byte; [\.] is [Chr "."] *)
| Range (lo hi : ascii)        (* [lo-hi] *)
| Cat (r1 r2 : regex)          (* r1r2 *)
| Alt (r1 r2 : regex)          (* r1|r2 *)
| Star (r : regex).            (* r* *)

(** [r+] *)
Definition Plus (r : regex) : regex := Cat r (Star r).

(** a literal word *)
Fixpoint lit (s : gostring) : regex :=
  match s with
  | [] => Eps
  | c :: s' => Cat (Chr c) (lit s')
  end.

Definition in_range (lo hi c : ascii) : bool :=
  (nat_of_ascii lo <=? nat_of_ascii c) && (nat_of_ascii c <=? nat_of_ascii hi).

Fixpoint nullable (r : regex) : bool :=
  match r with
  | Void => false
  | Eps => true
  | Chr _ => false
  | Range _ _ => false
  | Cat r1 r2 => nullable r1 && nullable r2
  | Alt r1 r2 => nullable r1 || nullable r2
  | Star _ => true
  end.

(** Brzozowski derivative: what is left of [r] after reading [c]. *)
Fixpoint deriv (c : ascii) (r : regex) : regex :=
  match r with
  | Void => Void
  | Eps => Void
  | Chr x => if Ascii.eqb x c then Eps else Void
  | Range lo hi => if in_range lo hi c then Eps else Void
  | Cat r1 r2 =>
      if nullable r1 then Alt (Cat (deriv c r1) r2) (deriv c r2)
      else Cat (deriv c r1) r2
  | Alt r1 r2 => Alt (deriv c r1) (deriv c r2)
  | Star r1 => Cat (deriv c r1) (Star r1)
  end.

(** Length of the longest prefix of [s] that [r] matches. *)
Fixpoint longest (r : regex) (s : gostring) : option nat :=
  match s with
  | [] => if nullable r then Some 0 else None
  | c :: s' =>
      match longest (deriv c r) s' with
      | Some n => Some (S n)
      | None => if nullable r then Some 0 else None
      end
  end.

(** The search of [FindStringIndex]: [pos] is the offset of [s] in the
    text and [bol] tells whether a line begins there. *)
Fixpoint find_from (r : regex) (s : gostring) (pos : nat) (bol : bool)
  : option (nat * nat) :=
  match (if bol then longest r s else None) with
  | Some n => Some (pos, pos + n)
  | None =>
      match s with
      | [] => None
      | c :: s' => find_from r s' (S pos) (Ascii.eqb c LF)
      end
  end.

(** [re.FindStringIndex(s)] for [re = MustCompilePOSIX("^" + body)]:
    [Some (start, end)] for the leftmost-longest match, [None] for [nil]. *)
Definition FindStringIndex (body : regex) (s : gostring) : option (nat * nat) :=
  find_from body s 0 true.

(** The loop of [ReplaceAllString] with the empty replacement: every match
    is dropped, the search resuming right after it; an empty match drops
    nothing and the byte after it is copied. *)
Fixpoint delete_from (fuel : nat) (r : regex) (s : gostring) (bol : bool)
  : gostring :=
  match fuel with
  | 0 => s
  | S fuel' =>
      match (if bol then longest r s else None) with
      | Some (S n) =>
          delete_from fuel' r (skipn (S n) s)
            (Ascii.eqb (nth n s SP) LF)
      | _ =>
          match s with
          | [] => []
          | c :: s' => c :: delete_from fuel' r s' (Ascii.eqb c LF)
          end
      end
  end.

(** [re.ReplaceAllString(s, "")] for [re = MustCompilePOSIX("^" + body)] *)
Definition ReplaceAllString_empty (body : regex) (s : gostring) : gostring :=
  delete_from (S (length s)) body s true.

(** Declarative meaning of a pattern body. *)
Inductive matches : regex -> gostring -> Prop :=
| MEps : matches Eps []
| MChr c : matches (Chr c) [c]
| MRange lo hi c : in_range lo hi c = true -> matches (Range lo hi) [c]
| MCat r1 r2 s1 s2 :
    matches r1 s1 -> matches r2 s2 -> matches (Cat r1 r2) (s1 ++ s2)
| MAltL r1 r2 s : matches r1 s -> matches (Alt r1 r2) s
| MAltR r1 r2 s : matches r2 s -> matches (Alt r1 r2) s
| MStar0 r : matches (Star r) []
| MStarS r s1 s2 :
    matches r s1 -> matches (Star r) s2 -> matches (Star r) (s1 ++ s2).

(** A line begins at offset [i] of [s]. *)
Definition bol (s : gostring) (i : nat) : Prop :=
  i = 0 \/ nth_error s (i - 1) = Some LF.

End regexp.

(** ** The library: data model *)

(** [type Opt struct { Name string; Desc string }]; the fields are prefixed
    here because [ManPage] has fields of the same names. *)
Record Opt : Type := mkOpt { oName : gostring; oDesc : gostring }.

(** [type macro_type int]: the zero value is the macro outside the table. *)
Inductive macro_type : Type :=
| no_macro      (* 0: not in [macro_types] *)
| b_macro       (* 1 *)
| ip_macro      (* 2 *)
| pp_macro      (* 3 *)
| sh_macro      (* 4 *)
| tp_macro.     (* 5 *)

Definition macro_type_eqb (a b : macro_type) : bool :=
  match a, b with
  | no_macro, no_macro | b_macro, b_macro | ip_macro, ip_macro
  | pp_macro, pp_macro | sh_macro, sh_macro | tp_macro, tp_macro => true
  | _, _ => false
  end.

(** [type macro struct { loc []int; mtype macro_type }], [loc] being
    [[start, end]]. *)
Record macro : Type := mkMacro { loc : nat * nat; mtype : macro_type }.

Definition mstart (m : macro) : nat := fst (loc m).
Definition mend (m : macro) : nat := snd (loc m).

(** [type parse_error struct { errmsg string }] *)
Record parse_error : Type := mkParseError { errmsg : string }.

(** [var macro_types = map[string]macro_type{...}]; a missing key reads as
    the zero value. *)
Definition macro_types_table : list (string * macro_type) :=
  [("B", b_macro); ("IP", ip_macro); ("PP", pp_macro); ("SH", sh_macro);
   ("TP", tp_macro)].

Fixpoint map_lookup (tbl : list (string * macro_type)) (k : gostring)
  : macro_type :=
  match tbl with
  | [] => no_macro
  | (k', v) :: tbl' =>
      if list_eq_dec ascii_dec (str k') k then v else map_lookup tbl' k
  end.

Definition macro_types (k : gostring) : macro_type :=
  map_lookup macro_types_table k.

(** ** The macro scanner and the section locator (both revisions) *)

Import regexp.

(** [`^\.[A-Z]+ `] *)
Definition macro_re : regex :=
  Cat (Chr ".") (Cat (Plus (Range "A" "Z")) (Chr " ")).

(** [`^\.SH *` + name] *)
Definition section_re (name : regex) : regex :=
  Cat (lit (str ".SH")) (Cat (Star (Chr " ")) name).

(** [`^\.[A-Z]+ *`] *)
Definition strip_re : regex :=
  Cat (Chr ".") (Cat (Plus (Range "A" "Z")) (Star (Chr " "))).

(** [func (man *ManPage) nextmacroOffset(offset int) *macro] *)
Definition nextmacroOffset (data : gostring) (offset : nat)
  : result (option macro) :=
  rest <- slice_from data offset ;;
  match FindStringIndex macro_re rest with
  | Some (i0, i1) =>
      let index := (offset + i0, offset + i1) in
      s <- slice data (fst index + 1) (snd index - 1) ;;
      Ok (Some (mkMacro index (macro_types s)))
  | None => Ok None
  end.

(** [func (man *ManPage) nextmacro(macro *macro) *macro] *)
Definition nextmacro (data : gostring) (m : macro) : result (option macro) :=
  nextmacroOffset data (snd (loc m)).

(** [func (man *ManPage) findSection(name string) (int, *parse_error)];
    [name] is the pattern the caller appends: a section name or
    [(OPTIONS|SWITCHES)]. *)
Definition findSection (data : gostring) (name : regex) : nat + parse_error :=
  match FindStringIndex (section_re name) data with
  | Some (_, i1) => inl i1
  | None => inr (mkParseError "Error locating section")
  end.

(** [type ManPage struct { Name, Path, Desc, Synopsis, data string; Opts []Opt }] *)
Record ManPage : Type := mkManPage {
  Name : gostring;
  Path : gostring;
  Desc : gostring;
  Synopsis : gostring;
  data : gostring;
  Opts : list Opt
}.

(** [ManPage{Path: filename}]: every other field has its zero value. *)
Definition new_ManPage (filename : gostring) : ManPage :=
  mkManPage [] filename [] [] [] [].

Definition set_Name (m : ManPage) (v : gostring) : ManPage :=
  mkManPage v (Path m) (Desc m) (Synopsis m) (data m) (Opts m).
Definition set_Desc (m : ManPage) (v : gostring) : ManPage :=
  mkManPage (Name m) (Path m) v (Synopsis m) (data m) (Opts m).
Definition set_Synopsis (m : ManPage) (v : gostring) : ManPage :=
  mkManPage (Name m) (Path m) (Desc m) v (data m) (Opts m).
Definition set_data (m : ManPage) (v : gostring) : ManPage :=
  mkManPage (Name m) (Path m) (Desc m) (Synopsis m) v (Opts m).
Definition set_Opts (m : ManPage) (v : list Opt) : ManPage :=
  mkManPage (Name m) (Path m) (Desc m) (Synopsis m) (data m) v.

(** The section names the library looks for. *)
Definition NAME : regex := lit (str "NAME").
Definition DESCRIPTION : regex := lit (str "DESCRIPTION").
Definition SYNOPSIS : regex := lit (str "SYNOPSIS").
(** [`(OPTIONS|SWITCHES)`] *)
Definition OPTIONS_SWITCHES : regex :=
  Alt (lit (str "OPTIONS")) (lit (str "SWITCHES")).

(** The loop of [getSection] (the same in both revisions):
    [for mc = nextmacroOffset(start); mc != nil; mc = nextmacro(mc)
       { if mc.mtype == sh_macro { break } }],
    entered with the first macro; the result is [mc] on exit. *)
Fixpoint skip_to_sh (fuel : nat) (data : gostring) (mc : option macro)
  : result (option macro) :=
  match mc with
  | None => Ok None
  | Some m =>
      if macro_type_eqb (mtype m) sh_macro then Ok (Some m)
      else match fuel with
           | 0 => OutOfFuel
           | S fuel' =>
               mc' <- nextmacro data m ;;
               skip_to_sh fuel' data mc'
           end
  end.

(** The text of a section that starts at [start]: up to the macro the loop
    stopped at, or to the end of the document. *)
Definition section_text (data : gostring) (start : nat) : result gostring :=
  mc0 <- nextmacroOffset data start ;;
  mc <- skip_to_sh (length data) data mc0 ;;
  match mc with
  | None => slice_from data start
  | Some m => slice data start (fst (loc m))
  end.

(** The tail of the loop body of [parseOpts] (the same in both revisions),
    after the lines of the entry are collected in [opt]:
    [[
      opt = strings.TrimLeft(opt, " ")
      if idx := strings.Index(opt, "-"); idx != -1 {
        if spc := strings.IndexAny(opt[idx:], "\r "); spc != -1 {
          spc += 1
          opt_name := opt[idx:spc]
          opt_desc := strings.Trim(opt[spc:], " ")
          m.Opts = append(m.Opts, Opt{Name: opt_name, Desc: opt_desc})
        }
      }
    ]] *)
Definition grab_option (opt : gostring) (opts : list Opt) : result (list Opt) :=
  let opt := strings.TrimLeft opt [SP] in
  match strings.Index opt "-" with
  | Some idx =>
      tail <- slice_from opt idx ;;
      match strings.IndexAny tail [CR; SP] with
      | Some spc =>
          let spc := spc + 1 in
          opt_name <- slice opt idx spc ;;
          rest <- slice_from opt spc ;;
          let opt_desc := strings.Trim rest [SP] in
          Ok (opts ++ [mkOpt opt_name opt_desc])
      | None => Ok opts
      end
  | None => Ok opts
  end.

(** A Go [error] value, as far as [fmt] looks at it: the name of its dynamic
    type as [reflect] prints it, and the text of its [Error] method. *)
Record go_error : Type := mkError { etype : gostring; emsg : gostring }.

(** The three steps [NewManPage] loads a page with: [os.Open],
    [gzip.NewReader] and [ioutil.ReadAll], each giving its result or an
    error. *)
Record loader : Type := mkLoader {
  file : Type;
  reader : Type;
  os_Open : gostring -> file + go_error;
  gzip_NewReader : file -> reader + go_error;
  ioutil_ReadAll : reader -> gostring + go_error
}.

(** What [fmt] prints for an argument that no verb of the format takes:
    [%!(EXTRA type=value)], the value as [%v] prints it. *)
Definition extra_arg (e : go_error) : gostring :=
  str "%!(EXTRA " ++ etype e ++ str "=" ++ emsg e ++ str ")".

(** How a call of [NewManPage] of [src/goman.go] ends when [parse] does not
    fault: it returns the page, or [log.Fatal] logs a text and ends the
    process ([os.Exit(1)]).  The text is the one [fmt.Sprint] makes of the
    arguments; the logger puts its date and time before it. *)
Inductive page_or_exit : Type :=
| Returns (man : ManPage)
| Exits (logged : gostring).

(** ** Revision [src/unnamed/part_003] *)

Module Part003.

(** [func stripmacros(str string) string] *)
Definition stripmacros (s : gostring) : gostring :=
  ReplaceAllString_empty strip_re s.

(** [func (m *ManPage) getSection(sectname string) string] *)
Definition getSection (m : ManPage) (sectname : regex) : result gostring :=
  let data0 := str "N/A" in
  d <- match findSection (data m) sectname with
       | inl idx =>
           let start := idx in
           body <- section_text (data m) start ;;
           Ok (stripmacros body)
       | inr _ => Ok data0
       end ;;
  Ok (strings.TrimSpace d).

(** [func (m *ManPage) parseName()] *)
Definition parseName (m : ManPage) : result ManPage :=
  sec <- getSection m NAME ;;
  name <- index_at_list (strings.Split sec SP) 0 ;;
  Ok (set_Name m (strings.TrimRight name (str " \,"))).

(** [func (m *ManPage) parseDesc()] *)
Definition parseDesc (m : ManPage) : result ManPage :=
  sec <- getSection m DESCRIPTION ;;
  Ok (set_Desc m sec).

(** [func (m *ManPage) parseSynopsis()] *)
Definition parseSynopsis (m : ManPage) : result ManPage :=
  sec <- getSection m SYNOPSIS ;;
  Ok (set_Synopsis m sec).

(** The inner loop of [parseOpts]:
    [for _, line := range lines
       { if len(line) == 0 || line[0] == '.' { break }; opt += " " + line }] *)
Fixpoint collect (lines : list gostring) (opt : gostring) : result gostring :=
  match lines with
  | [] => Ok opt
  | line :: lines' =>
      if length line =? 0 then Ok opt
      else
        c <- index_at line 0 ;;
        if Ascii.eqb c "." then Ok opt
        else collect lines' (opt ++ SP :: line)
  end.

(** The outer loop of [parseOpts], entered with the first macro. *)
Fixpoint opts_loop (fuel : nat) (data : gostring) (mc : option macro)
  (opts : list Opt) : result (list Opt) :=
  match mc with
  | None => Ok opts
  | Some m =>
      if macro_type_eqb (mtype m) sh_macro then Ok opts
      else if negb (macro_type_eqb (mtype m) b_macro
                    || macro_type_eqb (mtype m) ip_macro) then Ok opts
      else
        rest <- slice_from data (snd (loc m)) ;;
        opt <- collect (strings.Split rest LF) [] ;;
        opts' <- grab_option opt opts ;;
        match fuel with
        | 0 => OutOfFuel
        | S fuel' =>
            mc' <- nextmacro data m ;;
            opts_loop fuel' data mc' opts'
        end
  end.

(** [func (m *ManPage) parseOpts()] *)
Definition parseOpts (m : ManPage) : result ManPage :=
  let run idx :=
    mc0 <- nextmacroOffset (data m) idx ;;
    opts <- opts_loop (length (data m)) (data m) mc0 (Opts m) ;;
    Ok (set_Opts m opts) in
  match findSection (data m) OPTIONS_SWITCHES with
  | inl idx => run idx
  | inr _ =>
      match findSection (data m) DESCRIPTION with
      | inl idx => run idx
      | inr _ => Ok m
      end
  end.

(** [func (man *ManPage) parse(data string)] *)
Definition parse (man : ManPage) (d : gostring) : result ManPage :=
  let man := set_data man (strings.ReplaceCR d) in
  man <- parseName man ;;
  man <- parseDesc man ;;
  man <- parseSynopsis man ;;
  parseOpts man.

(** [func NewManPage(filename string)], which returns the page or an error:
    [[
      fil, err := os.Open(filename)
      if err != nil {
        return nil, fmt.Errorf("Error opening man page: %v", err.Error()) }
      rdr, err := gzip.NewReader(fil)
      if err != nil { return nil, fmt.Errorf("Error building a reader: ", err) }
      data, err := ioutil.ReadAll(rdr)
      if err != nil { return nil, fmt.Errorf("Error reading gzip data: ", err) }
      man.parse(string(data))
      return &man, nil
    ]]
    The error returned is given by its text; the last two formats have no
    verb for [err]. *)
Definition NewManPage (L : loader) (filename : gostring)
  : result (ManPage + gostring) :=
  let man := new_ManPage filename in
  match os_Open L filename with
  | inr err => Ok (inr (str "Error opening man page: " ++ emsg err))
  | inl fil =>
      match gzip_NewReader L fil with
      | inr err => Ok (inr (str "Error building a reader: " ++ extra_arg err))
      | inl rdr =>
          match ioutil_ReadAll L rdr with
          | inr err =>
              Ok (inr (str "Error reading gzip data: " ++ extra_arg err))
          | inl d =>
              man' <- parse man d ;;
              Ok (inl man')
          end
      end
  end.

End Part003.

(** ** Revision [src/goman.go] *)

Module GomanGo.

(** [func stripMacros(str string)]: the replacement is assigned to the
    parameter and nothing is returned, the caller's string is unchanged. *)
Definition stripMacros (s : gostring) : unit :=
  let _ := ReplaceAllString_empty strip_re s in tt.

(** [func (m *ManPage) getSection(sectname string) string] *)
Definition getSection (m : ManPage) (sectname : regex) : result gostring :=
  let data0 := str "N/A" in
  d <- match findSection (data m) sectname with
       | inl idx =>
           let start := idx in
           body <- section_text (data m) start ;;
           let _ := stripMacros body in
           Ok body
       | inr _ => Ok data0
       end ;;
  Ok (strings.TrimSpace d).

(** [func (m *ManPage) parseName()] *)
Definition parseName (m : ManPage) : result ManPage :=
  sec <- getSection m NAME ;;
  name <- index_at_list (strings.Split sec SP) 0 ;;
  Ok (set_Name m name).

(** [func (m *ManPage) parseDesc()] *)
Definition parseDesc (m : ManPage) : result ManPage :=
  sec <- getSection m DESCRIPTION ;;
  Ok (set_Desc m sec).

(** [func (m *ManPage) parseSynopsis()] *)
Definition parseSynopsis (m : ManPage) : result ManPage :=
  sec <- getSection m SYNOPSIS ;;
  Ok (set_Synopsis m sec).

(** The inner loop of [parseOpts]:
    [for _, line := range lines
       { if line[0] == '.' { break }; opt += " " + line }] *)
Fixpoint collect (lines : list gostring) (opt : gostring) : result gostring :=
  match lines with
  | [] => Ok opt
  | line :: lines' =>
      c <- index_at line 0 ;;
      if Ascii.eqb c "." then Ok opt
      else collect lines' (opt ++ SP :: line)
  end.

(** The outer loop of [parseOpts], entered with the first macro. *)
Fixpoint opts_loop (fuel : nat) (data : gostring) (mc : option macro)
  (opts : list Opt) : result (list Opt) :=
  match mc with
  | None => Ok opts
  | Some m =>
      if macro_type_eqb (mtype m) sh_macro then Ok opts
      else if negb (macro_type_eqb (mtype m) b_macro
                    || macro_type_eqb (mtype m) ip_macro) then Ok opts
      else
        rest <- slice_from data (snd (loc m)) ;;
        opt <- collect (strings.Split rest LF) [] ;;
        opts' <- grab_option opt opts ;;
        match fuel with
        | 0 => OutOfFuel
        | S fuel' =>
            mc' <- nextmacro data m ;;
            opts_loop fuel' data mc' opts'
        end
  end.

(** [func (m *ManPage) parseOpts()] *)
Definition parseOpts (m : ManPage) : result ManPage :=
  let run idx :=
    mc0 <- nextmacroOffset (data m) idx ;;
    opts <- opts_loop (length (data m)) (data m) mc0 (Opts m) ;;
    Ok (set_Opts m opts) in
  match findSection (data m) OPTIONS_SWITCHES with
  | inl idx => run idx
  | inr _ =>
      match findSection (data m) DESCRIPTION with
      | inl idx => run idx
      | inr _ => Ok m
      end
  end.

(** [func (man *ManPage) parse(data string)] *)
Definition parse (man : ManPage) (d : gostring) : result ManPage :=
  let man := set_data man (strings.ReplaceCR d) in
  man <- parseName man ;;
  man <- parseDesc man ;;
  man <- parseSynopsis man ;;
  parseOpts man.

(** [func NewManPage(filename string) *ManPage]:
    [[
      fil, err := os.Open(filename)
      if err != nil { log.Fatal("Error opening man page", err) }
      rdr, err := gzip.NewReader(fil)
      if err != nil { log.Fatal("Error building a reader ", err) }
      data, err := ioutil.ReadAll(rdr)
      if err != nil { log.Fatal("Error reading gzip data ", err) }
      man.parse(string(data))
      return &man
    ]]
    [fmt.Sprint] puts no space between a string and the operand after it. *)
Definition NewManPage (L : loader) (filename : gostring)
  : result page_or_exit :=
  let man := new_ManPage filename in
  match os_Open L filename with
  | inr err => Ok (Exits (str "Error opening man page" ++ emsg err))
  | inl fil =>
      match gzip_NewReader L fil with
      | inr err => Ok (Exits (str "Error building a reader " ++ emsg err))
      | inl rdr =>
          match ioutil_ReadAll L rdr with
          | inr err => Ok (Exits (str "Error reading gzip data " ++ emsg err))
          | inl d =>
              man' <- parse man d ;;
              Ok (Returns man')
          end
      end
  end.

End GomanGo.

(** ** The renderings (both revisions) *)

(** [func (pe *parse_error) Error() string] *)
Definition Error (pe : parse_error) : string := errmsg pe.

(** [func (o Opt) String() string]: [o.Name + ": " + o.Desc] *)
Definition Opt_String (o : Opt) : gostring :=
  oName o ++ str ": " ++ oDesc o.

(** [func (m *ManPage) String() string]: the three labelled fields by
    [fmt.Sprintf], the line [Options:], and the loop
    [for _, o := range m.Opts { str += fmt.Sprintf("%v\n", o) }], where [%v]
    prints an [Opt] through its [String] method. *)
Definition ManPage_String (m : ManPage) : gostring :=
  let s := str "Name: " ++ Name m ++ [LF]
           ++ str "Desc:     " ++ Desc m ++ [LF]
           ++ str "Synposis: " ++ Synopsis m ++ [LF] in
  let s := s ++ str "Options:" ++ [LF] in
  fold_left (fun acc o => acc ++ (Opt_String o ++ [LF])) (Opts m) s.

(** ** Definitions used to state the properties *)

(** The macros the scanner yields from a first result on, each one obtained
    from the one before by [nextmacro]. *)
Fixpoint macro_seq (fuel : nat) (data : gostring) (mc : result (option macro))
  : list macro :=
  match fuel, mc with
  | S fuel', Ok (Some m) => m :: macro_seq fuel' data (nextmacro data m)
  | _, _ => []
  end.

Definition is_sh (m : macro) : bool := macro_type_eqb (mtype m) sh_macro.

(** Where the body of a section that starts at [start] ends: at the first
    [.SH] macro of the scan, or at the end of the document. *)
Definition section_stop (data : gostring) (start : nat) : nat :=
  match find is_sh (macro_seq (S (length data)) data (nextmacroOffset data start)) with
  | Some m => fst (loc m)
  | None => length data
  end.

(** [strings.Join(ls, sep)] for a one-byte separator. *)
Fixpoint Join (ls : list gostring) (sep : ascii) : gostring :=
  match ls with
  | [] => []
  | [l] => l
  | l :: ls' => l ++ sep :: Join ls' sep
  end.

Fixpoint run_length (p : ascii -> bool) (s : gostring) : nat :=
  match s with
  | c :: s' => if p c then S (run_length p s') else 0
  | [] => 0
  end.

Definition is_upper (c : ascii) : bool := in_range "A" "Z" c.
Definition is_sp (c : ascii) : bool := Ascii.eqb c SP.

(** Length of the macro token a line starts with: a dot, one or more capital
    letters and the spaces after them; [0] when the line starts with none. *)
Definition token_len (l : gostring) : nat :=
  match l with
  | c :: l' =>
      if Ascii.eqb c "." then
        let k := run_length is_upper l' in
        if k =? 0 then 0 else 1 + k + run_length is_sp (skipn k l')
      else 0
  | [] => 0
  end.

(** A line without its macro token. *)
Definition strip_line (l : gostring) : gostring := skipn (token_len l) l.

(** The specification's wording of the stripping (section 4.3): "each line
    matching the macro-line pattern is removed, not just its macro token". *)
Definition spec_strip_lines (s : gostring) : gostring :=
  Join (filter (fun l => token_len l =? 0) (strings.Split s LF)) LF.

(** The specification's wording of the result of [findSection] (section 4.2),
    "the offset immediately after the matched heading line": the offset is
    where a line ends or where the next one begins. *)
Definition after_line (s : gostring) (e : nat) : Prop :=
  e = length s \/ nth_error s e = Some LF \/
  (0 < e /\ nth_error s (e - 1) = Some LF).

(** The specification's wording of the option entry (section 4.5): the token
    is "the substring [-,whitespace)", the description "the remainder
    (trimmed)". *)
Definition spec_option (opt : gostring) : option Opt :=
  let opt := strings.TrimLeft opt [SP] in
  match strings.Index opt "-" with
  | Some idx =>
      match strings.IndexAny (skipn idx opt) [CR; SP] with
      | Some spc =>
          Some (mkOpt (firstn spc (skipn idx opt))
                      (strings.Trim (skipn (idx + spc) opt) [SP]))
      | None => None
      end
  | None => None
  end.

(** A line begins at offset [k] of [s], where [b] tells whether one begins
    at offset [0] (the search state of [find_from]). *)
Definition lbol (b : bool) (s : gostring) (k : nat) : Prop :=
  (k = 0 /\ b = true) \/ (0 < k /\ nth_error s (k - 1) = Some LF).

Definition starts_before (a b : macro) : Prop := mstart a < mstart b.

(** The bytes of [s] from offset [i] up to offset [e]. *)
Definition sub (s : gostring) (i e : nat) : gostring :=
  firstn (e - i) (skipn i s).

(** The text of the section that starts at [start], as the specification
    describes it: from [start] up to the first [.SH] macro of the scan. *)
Definition section_body (data : gostring) (start : nat) : gostring :=
  sub data start (section_stop data start).

(** What [getSection] computes, [strip] being what the revision does to the
    text of the section. *)
Definition section_or_sentinel (strip : gostring -> gostring)
  (data : gostring) (name : regex) : gostring :=
  strings.TrimSpace
    match findSection data name with
    | inl start => strip (section_body data start)
    | inr _ => str "N/A"
    end.

(** The text before the first space. *)
Definition first_token (s : gostring) : gostring :=
  match strings.Index s SP with
  | Some i => firstn i s
  | None => s
  end.

(** The cutset of [parseName]: space, backslash, comma. *)
Definition name_cutset : gostring := str " \,".

(** A record after its [Opts] are put behind [opts]. *)
Definition prepend_Opts (opts : list Opt) (m : ManPage) : ManPage :=
  set_Opts m (opts ++ Opts m).

Definition result_map {A B : Type} (f : A -> B) (r : result A) : result B :=
  match r with
  | Ok a => Ok (f a)
  | Panic k => Panic k
  | OutOfFuel => OutOfFuel
  end.

(** A line begins at offset [i] of [data] for a scan that started at
    [off]: the scan starts there, or the byte before is a line feed. *)
Definition scan_bol (data : gostring) (off i : nat) : Prop :=
  i = off \/ (off < i /\ nth_error data (i - 1) = Some LF).

(** The macros that stand for an option entry. *)
Definition is_opt_macro (m : macro) : bool :=
  macro_type_eqb (mtype m) b_macro || macro_type_eqb (mtype m) ip_macro.

(** The leading macros of a scan that stand for option entries. *)
Fixpoint option_run (ms : list macro) : list macro :=
  match ms with
  | m :: ms' => if is_opt_macro m then m :: option_run ms' else []
  | [] => []
  end.

(** A text with no space at either end. *)
Definition space_trimmed (s : gostring) : Prop :=
  (forall c t, s = c :: t -> c <> SP) /\
  (forall pre c, s = pre ++ [c] -> c <> SP).

(** What [parseOpts] keeps true of every option it emits. *)
Definition option_wf (o : Opt) : Prop :=
  (oName o = [] \/ exists t, oName o = "-"%char :: t)
  /\ space_trimmed (oDesc o).

(** A line of [Split] on which the line collection of [parseOpts] goes on. *)
Definition entry_line (l : gostring) : bool :=
  match l with
  | [] => false
  | c :: _ => negb (Ascii.eqb c ".")
  end.

Definition count_byte (c : ascii) (s : gostring) : nat :=
  length (filter (Ascii.eqb c) s).

(** The leading elements of a list that satisfy [p]. *)
Fixpoint leading {A : Type} (p : A -> bool) (l : list A) : list A :=
  match l with
  | x :: l' => if p x then x :: leading p l' else []
  | [] => []
  end.

(** The offset [parseOpts] starts its scan at: after the OPTIONS or SWITCHES
    heading, else after the DESCRIPTION heading, else nowhere. *)
Definition opts_start (d : gostring) : option nat :=
  match findSection d OPTIONS_SWITCHES with
  | inl idx => Some idx
  | inr _ =>
      match findSection d DESCRIPTION with
      | inl idx => Some idx
      | inr _ => None
      end
  end.

(** No line of [d] begins with [.SH]. *)
Definition no_heading (d : gostring) : Prop :=
  forall i, bol d i -> i + 3 <= length d -> sub d i (i + 3) <> str ".SH".

(** The record of a page in which no section was found. *)
Definition sentinel_page (path d : gostring) (opts : list Opt) : ManPage :=
  mkManPage (str "N/A") path (str "N/A") (str "N/A") d opts.


(** A loader for a file system with the one file [test.1.gz], whose
    decompressed bytes are [d]. *)
Definition one_file (d : gostring) : loader :=
  mkLoader unit unit
    (fun name =>
       if list_eq_dec ascii_dec name (str "test.1.gz") then inl tt
       else inr (mkError (str "*fs.PathError")
                   (str "open " ++ name ++ str ": no such file or directory")))
    (fun _ => inl tt)
    (fun _ => inl d).

(** ** Pages used below *)

(** The page of the test of the library, shortened to two options. *)
Definition page_sample : gostring :=
  unlines [".SH NAME"; "foobar \- summary";
           ".SH DESCRIPTION"; "This is just a sample...";
           ".SH OPTIONS";
           ".TP"; ".B \-q"; "q is an option";
           ".TP"; ".B \-u"; "u is an option";
           ".SH AUTHOR"; "A. U. Thor"].

(** An entry whose dash is not near the start of its text. *)
Definition page_late_dash : gostring :=
  unlines [".SH OPTIONS"; ".B see -v now"; ".SH SEE ALSO"].

(** An entry that starts with an unescaped dash. *)
Definition page_plain_dash : gostring :=
  unlines [".SH OPTIONS"; ".B -q q is an option"; ".SH SEE ALSO"].

(** An entry whose first dash is inside a word. *)
Definition page_mid_dash : gostring :=
  unlines [".SH OPTIONS"; ".B abc-d e"; ".SH SEE ALSO"].

(** An entry whose macro is followed by an empty line. *)
Definition page_empty_line : gostring :=
  unlines [".SH OPTIONS"; ".B "; "-q quiet"; ".SH SEE ALSO"].

(** A description with a macro line. *)
Definition page_bold_desc : gostring :=
  unlines [".SH DESCRIPTION"; ".B bold text"; "plain"].

(** A NAME section that reads N/A. *)
Definition page_na : gostring := unlines [".SH NAME"; "N/A"].

(** A heading that goes on after the name looked for. *)
Definition page_names : gostring := unlines [".SH NAMES"; "x"].

(** NAME lines with a roff escape, without and with a space after it. *)
Definition page_foo : gostring := unlines [".SH NAME"; "foo\,bar"].
Definition page_foo_sp : gostring := unlines [".SH NAME"; "foo\, bar"].

(** A page with carriage returns. *)
Definition page_crlf : gostring :=
  str ".SH NAME" ++ [CR; LF] ++ str "foobar \- summary" ++ [CR; LF].

(** [page_sample] as a DOS file has it: every line ends in CR LF. *)
Definition page_sample_crlf : gostring :=
  flat_map (fun c => if Ascii.eqb c LF then [CR; LF] else [c]) page_sample.

Definition fresh : ManPage := new_ManPage (str "test.1.gz").

(** ** Slices *)

Lemma slice_ok (s : gostring) (lo hi : nat) :
  lo <= hi -> hi <= length s ->
  slice s lo hi = Ok (firstn (hi - lo) (skipn lo s)).
Proof.
  intros H1 H2. unfold slice.
  destruct (Nat.leb_spec lo hi); [|lia].
  destruct (Nat.leb_spec hi (length s)); [reflexivity|lia].
Qed.

Lemma slice_from_ok (s : gostring) (lo : nat) :
  lo <= length s -> slice_from s lo = Ok (skipn lo s).
Proof.
  intros H. unfold slice_from. rewrite slice_ok by lia.
  rewrite firstn_all2; [reflexivity|]. rewrite length_skipn. lia.
Qed.

Lemma slice_inv (s : gostring) (lo hi : nat) (r : gostring) :
  slice s lo hi = Ok r ->
  lo <= hi /\ hi <= length s /\ r = firstn (hi - lo) (skipn lo s).
Proof.
  unfold slice.
  destruct (Nat.leb_spec lo hi); destruct (Nat.leb_spec hi (length s));
    simpl; intros E; inversion E; auto.
Qed.

Lemma slice_panics (s : gostring) (lo hi : nat) :
  hi < lo -> slice s lo hi = Panic SliceBounds.
Proof.
  intros H. unfold slice. destruct (Nat.leb_spec lo hi); [lia|reflexivity].
Qed.

(** ** Facts about package [strings] *)

Lemma TrimLeft_head (s cut : gostring) (c : ascii) (t : gostring) :
  strings.TrimLeft s cut = c :: t -> strings.mem c cut = false.
Proof.
  induction s as [|x s IH]; simpl; [discriminate|].
  destruct (strings.mem x cut) eqn:E; [exact IH|].
  intros H. inversion H; subst. exact E.
Qed.

Lemma TrimLeft_incl (s cut : gostring) (x : ascii) :
  In x (strings.TrimLeft s cut) -> In x s.
Proof.
  induction s as [|c s IH]; simpl; [auto|].
  destruct (strings.mem c cut); [auto|].
  simpl. auto.
Qed.

Lemma TrimRight_last (s cut pre : gostring) (c : ascii) :
  strings.TrimRight s cut = pre ++ [c] -> strings.mem c cut = false.
Proof.
  unfold strings.TrimRight. intros H.
  apply (f_equal (@rev ascii)) in H.
  rewrite rev_involutive, rev_app_distr in H. simpl in H.
  eapply TrimLeft_head. exact H.
Qed.

Lemma TrimRight_incl (s cut : gostring) (x : ascii) :
  In x (strings.TrimRight s cut) -> In x s.
Proof.
  unfold strings.TrimRight. intros H.
  apply in_rev in H. apply TrimLeft_incl in H. apply in_rev. exact H.
Qed.

(** The description of an emitted option neither starts nor ends with a
    space (the cutset of [strings.Trim] is the space alone). *)
Lemma TrimRight_prefix (s cut : gostring) :
  exists k, strings.TrimRight s cut = firstn k s.
Proof.
  unfold strings.TrimRight.
  assert (H : forall r, exists j, strings.TrimLeft r cut = skipn j r).
  { induction r as [|c r [j IH]]; simpl; [exists 0; reflexivity|].
    destruct (strings.mem c cut); [exists (S j); exact IH|exists 0; reflexivity]. }
  destruct (H (rev s)) as [j ->].
  exists (length s - j).
  rewrite skipn_rev, rev_involutive. reflexivity.
Qed.

Lemma Trim_ends (s : gostring) :
  (forall c t, strings.Trim s [SP] = c :: t -> c <> SP)
  /\ (forall pre c, strings.Trim s [SP] = pre ++ [c] -> c <> SP).
Proof.
  unfold strings.Trim. split.
  - intros c t H.
    destruct (TrimRight_prefix (strings.TrimLeft s [SP]) [SP]) as [k E].
    rewrite E in H.
    destruct (strings.TrimLeft s [SP]) as [|x l] eqn:L;
      [destruct k; discriminate H|].
    destruct k; [discriminate H|]. simpl in H. inversion H; subst.
    apply TrimLeft_head in L. intros ->. discriminate L.
  - intros pre c H. apply TrimRight_last in H. intros ->. discriminate H.
Qed.

Lemma Index_bound (s : gostring) (c : ascii) (i : nat) :
  strings.Index s c = Some i -> i < length s.
Proof.
  revert i. induction s as [|x s IH]; simpl; intros i; [discriminate|].
  destruct (Ascii.eqb x c); [intros H; inversion H; lia|].
  destruct (strings.Index s c) as [j|]; simpl; [|discriminate].
  intros H. inversion H. specialize (IH j eq_refl). lia.
Qed.

Lemma IndexAny_bound (s chars : gostring) (i : nat) :
  strings.IndexAny s chars = Some i -> i < length s.
Proof.
  revert i. induction s as [|x s IH]; simpl; intros i; [discriminate|].
  destruct (strings.mem x chars); [intros H; inversion H; lia|].
  destruct (strings.IndexAny s chars) as [j|]; simpl; [|discriminate].
  intros H. inversion H. specialize (IH j eq_refl). lia.
Qed.

Lemma first_token_no_space (s : gostring) : ~ In SP (first_token s).
Proof.
  unfold first_token. induction s as [|c s IH]; simpl; [auto|].
  destruct (Ascii.eqb_spec c SP) as [->|N]; simpl; [auto|].
  destruct (strings.Index s SP) as [i|]; simpl;
    intros [E|H]; auto.
Qed.

Lemma Split_first_token (s : gostring) :
  exists ls, strings.Split s SP = first_token s :: ls.
Proof.
  unfold first_token.
  induction s as [|c s [ls IH]]; simpl.
  - eauto.
  - destruct (Ascii.eqb c SP); [eauto|].
    rewrite IH. destruct (strings.Index s SP); simpl; eauto.
Qed.

Lemma Split_no_sep (t : gostring) :
  ~ In LF t -> strings.Split t LF = [t].
Proof.
  induction t as [|c t IH]; simpl; [reflexivity|].
  intros H. destruct (Ascii.eqb_spec c LF) as [->|_]; [tauto|].
  rewrite IH by tauto. reflexivity.
Qed.

Lemma Split_line (t rest : gostring) :
  ~ In LF t -> strings.Split (t ++ LF :: rest) LF = t :: strings.Split rest LF.
Proof.
  induction t as [|c t IH]; simpl.
  - intros _. reflexivity.
  - intros H. destruct (Ascii.eqb_spec c LF) as [->|_]; [tauto|].
    rewrite IH by tauto. reflexivity.
Qed.

Lemma Split_first (s : gostring) :
  exists l0 ls,
    strings.Split s LF = l0 :: ls /\ ~ In LF l0 /\
    ((s = l0 /\ ls = []) \/
     (exists rest, s = l0 ++ LF :: rest /\ ls = strings.Split rest LF)).
Proof.
  induction s as [|c s (l0 & ls & E & N & C)].
  - exists [], []. simpl. auto.
  - simpl. destruct (Ascii.eqb_spec c LF) as [->|Hc].
    + exists [], (strings.Split s LF). simpl. repeat split; [tauto|].
      right. exists s. auto.
    + rewrite E. exists (c :: l0), ls. repeat split.
      * simpl. intros [F|F]; [congruence|tauto].
      * destruct C as [[-> ->]|(rest & -> & ->)]; [left; auto|].
        right. exists rest. auto.
Qed.

Lemma Join_cons_char (c : ascii) (l : gostring) (ls : list gostring) (sep : ascii) :
  Join ((c :: l) :: ls) sep = c :: Join (l :: ls) sep.
Proof. destruct ls; reflexivity. Qed.

Lemma trim_runes_done (width : gostring -> nat) :
  width [] = 0 ->
  forall fuel s, length s <= fuel -> width (strings.trim_runes width fuel s) = 0.
Proof.
  intros W0. induction fuel as [|fuel IH]; intros s Hs;
    cbn [strings.trim_runes].
  - destruct s; [exact W0 | simpl in Hs; lia].
  - destruct (width s) as [|w] eqn:W; [exact W|].
    apply IH. rewrite length_skipn.
    destruct s; [congruence | simpl in *; lia].
Qed.

Lemma trim_runes_skipn (width : gostring -> nat) :
  forall fuel s, exists k, strings.trim_runes width fuel s = skipn k s.
Proof.
  induction fuel as [|fuel IH]; intros s; cbn [strings.trim_runes].
  - exists 0. reflexivity.
  - destruct (width s) as [|w]; [exists 0; reflexivity|].
    destruct (IH (skipn (S w) s)) as [k ->].
    exists (k + S w). apply skipn_skipn.
Qed.

Lemma space_width_firstn (j : nat) (l : gostring) :
  strings.space_width l = 0 -> strings.space_width (firstn j l) = 0.
Proof.
  unfold strings.space_width.
  destruct l as [|a [|b [|c l]]]; destruct j as [|[|[|j]]];
    cbn [firstn map]; try reflexivity;
    destruct (strings.space1 (nat_of_ascii a)); try reflexivity;
    try discriminate;
    destruct (strings.space2 (nat_of_ascii a) (nat_of_ascii b));
    try reflexivity; try discriminate; auto.
Qed.

Lemma TrimSpace_trimmed (s : gostring) :
  strings.space_width (strings.TrimSpace s) = 0
  /\ strings.space_width_rev (rev (strings.TrimSpace s)) = 0.
Proof.
  unfold strings.TrimSpace. cbv zeta.
  set (l := strings.trim_runes strings.space_width (length s) s).
  split.
  - destruct (trim_runes_skipn strings.space_width_rev (length l) (rev l))
      as [k ->].
    rewrite skipn_rev, rev_involutive.
    apply space_width_firstn.
    apply trim_runes_done; [reflexivity | lia].
  - rewrite rev_involutive.
    apply trim_runes_done; [reflexivity | rewrite length_rev; lia].
Qed.

(** ** The pattern matcher agrees with the meaning of patterns *)

Section RegexpFacts.

Lemma matches_Cat_inv (r1 r2 : regex) (w : gostring) :
  matches (Cat r1 r2) w ->
  exists s1 s2, w = s1 ++ s2 /\ matches r1 s1 /\ matches r2 s2.
Proof. intros H. inversion H; subst. eauto. Qed.

Lemma matches_Alt_inv (r1 r2 : regex) (w : gostring) :
  matches (Alt r1 r2) w -> matches r1 w \/ matches r2 w.
Proof. intros H. inversion H; subst; auto. Qed.

Lemma matches_Chr_inv (c : ascii) (w : gostring) :
  matches (Chr c) w -> w = [c].
Proof. intros H. inversion H; subst; auto. Qed.

Lemma matches_Range_inv (lo hi : ascii) (w : gostring) :
  matches (Range lo hi) w -> exists c, w = [c] /\ in_range lo hi c = true.
Proof. intros H. inversion H; subst; eauto. Qed.

Lemma matches_Eps_inv (w : gostring) : matches Eps w -> w = [].
Proof. intros H. inversion H; subst; auto. Qed.

Lemma nullable_matches (r : regex) : nullable r = true <-> matches r [].
Proof.
  induction r; simpl; split; intros H;
    try discriminate; try (inversion H; fail).
  - constructor.
  - reflexivity.
  - apply andb_true_iff in H as [H1 H2].
    change (@nil ascii) with (@nil ascii ++ []).
    constructor; [apply IHr1 | apply IHr2]; assumption.
  - apply matches_Cat_inv in H as (s1 & s2 & E & M1 & M2).
    symmetry in E. apply app_eq_nil in E as [-> ->].
    apply andb_true_iff. split; [apply IHr1 | apply IHr2]; assumption.
  - apply orb_true_iff in H as [H|H];
      [apply MAltL, IHr1 | apply MAltR, IHr2]; assumption.
  - apply orb_true_iff. apply matches_Alt_inv in H as [H|H];
      [left; apply IHr1 | right; apply IHr2]; assumption.
  - constructor.
  - reflexivity.
Qed.

Lemma deriv_sound (c : ascii) (r : regex) :
  forall s, matches (deriv c r) s -> matches r (c :: s).
Proof.
  induction r; simpl; intros s H; try (inversion H; fail).
  - destruct (Ascii.eqb_spec c0 c); [|inversion H].
    apply matches_Eps_inv in H. subst. constructor.
  - destruct (in_range lo hi c) eqn:E; [|inversion H].
    apply matches_Eps_inv in H. subst. constructor; assumption.
  - destruct (nullable r1) eqn:N.
    + apply matches_Alt_inv in H as [H|H].
      * apply matches_Cat_inv in H as (s1 & s2 & -> & M1 & M2).
        change (c :: s1 ++ s2) with ((c :: s1) ++ s2).
        constructor; auto.
      * change (c :: s) with ([] ++ c :: s).
        constructor; [apply nullable_matches; assumption | auto].
    + apply matches_Cat_inv in H as (s1 & s2 & -> & M1 & M2).
      change (c :: s1 ++ s2) with ((c :: s1) ++ s2).
      constructor; auto.
  - apply matches_Alt_inv in H as [H|H]; [apply MAltL | apply MAltR]; auto.
  - apply matches_Cat_inv in H as (s1 & s2 & -> & M1 & M2).
    change (c :: s1 ++ s2) with ((c :: s1) ++ s2).
    constructor; auto.
Qed.

Lemma deriv_complete (c : ascii) (r : regex) (w : gostring) :
  matches r w -> forall s, w = c :: s -> matches (deriv c r) s.
Proof.
  induction 1 as [|x|lo hi x R|r1 r2 s1 s2 M1 IH1 M2 IH2|r1 r2 w M IH
                 |r1 r2 w M IH| |r1 s1 s2 M1 IH1 M2 IH2];
    intros s E; simpl.
  - discriminate.
  - inversion E; subst. rewrite Ascii.eqb_refl. constructor.
  - inversion E; subst. rewrite R. constructor.
  - destruct s1 as [|x s1'].
    + simpl in E. subst s2.
      apply nullable_matches in M1. rewrite M1.
      apply MAltR. apply IH2. reflexivity.
    + simpl in E. inversion E; subst.
      destruct (nullable r1);
        [apply MAltL|]; constructor; auto.
  - apply MAltL. auto.
  - apply MAltR. auto.
  - discriminate.
  - destruct s1 as [|x s1'].
    + simpl in E. subst s2. apply IH2. reflexivity.
    + simpl in E. inversion E; subst. constructor; auto.
Qed.

Lemma longest_sound (r : regex) (s : gostring) (n : nat) :
  longest r s = Some n -> n <= length s /\ matches r (firstn n s).
Proof.
  revert r n. induction s as [|c s IH]; simpl; intros r n H.
  - destruct (nullable r) eqn:N; inversion H; subst.
    split; [lia | apply nullable_matches; assumption].
  - destruct (longest (deriv c r) s) as [k|] eqn:L.
    + inversion H; subst. apply IH in L as [L1 L2].
      split; [lia | simpl; apply deriv_sound; assumption].
    + destruct (nullable r) eqn:N; inversion H; subst.
      split; [lia | apply nullable_matches; assumption].
Qed.

Lemma longest_complete (r : regex) (s : gostring) (m : nat) :
  m <= length s -> matches r (firstn m s) ->
  exists n, longest r s = Some n /\ m <= n.
Proof.
  revert r m. induction s as [|c s IH]; simpl; intros r m Hm M.
  - assert (m = 0) by lia. subst. simpl in M.
    apply nullable_matches in M. rewrite M. exists 0. auto.
  - destruct m as [|m].
    + simpl in M. apply nullable_matches in M. rewrite M.
      destruct (longest (deriv c r) s) as [k|]; eexists; split;
        try reflexivity; lia.
    + simpl in M.
      pose proof (deriv_complete c r _ M (firstn m s) eq_refl) as M'.
      apply IH in M' as [n [L Hn]]; [|lia].
      rewrite L. exists (S n). split; [reflexivity | lia].
Qed.

Lemma longest_none (r : regex) (s : gostring) :
  longest r s = None ->
  forall m, m <= length s -> ~ matches r (firstn m s).
Proof.
  intros L m Hm M.
  destruct (longest_complete r s m Hm M) as [n [E _]]. congruence.
Qed.

Lemma longest_max (r : regex) (s : gostring) (n : nat) :
  longest r s = Some n ->
  forall m, n < m -> m <= length s -> ~ matches r (firstn m s).
Proof.
  intros L m Hn Hm M.
  destruct (longest_complete r s m Hm M) as [k [E Hk]].
  rewrite L in E. inversion E. lia.
Qed.

Lemma longest_positive (r : regex) (s : gostring) (n : nat) :
  nullable r = false -> longest r s = Some n -> 0 < n.
Proof.
  intros N L. destruct n; [|lia].
  apply longest_sound in L as [_ M]. simpl in M.
  apply nullable_matches in M. congruence.
Qed.

End RegexpFacts.

Lemma matches_lit (s w : gostring) : matches (lit s) w <-> w = s.
Proof.
  revert w. induction s as [|c s IH]; intros w; simpl; split; intros H.
  - apply matches_Eps_inv in H. exact H.
  - subst. constructor.
  - apply matches_Cat_inv in H as (a & b & -> & Ha & Hb).
    apply matches_Chr_inv in Ha. apply IH in Hb. subst. reflexivity.
  - subst. change (c :: s) with ([c] ++ s).
    constructor; [constructor | apply IH; reflexivity].
Qed.

Lemma matches_star_chr (c : ascii) (w : gostring) :
  matches (Star (Chr c)) w <-> exists k, w = repeat c k.
Proof.
  split.
  - intros H. remember (Star (Chr c)) as r eqn:R.
    induction H as [| | | | | | |r0 s1 s2 M1 _ M2 IH2]; try discriminate.
    + exists 0. reflexivity.
    + inversion R; subst r0.
      apply matches_Chr_inv in M1. subst s1.
      destruct (IH2 eq_refl) as [k ->]. exists (S k). reflexivity.
  - intros [k ->]. induction k as [|k IH]; simpl.
    + constructor.
    + change (c :: repeat c k) with ([c] ++ repeat c k).
      constructor; [constructor | exact IH].
Qed.

Lemma matches_star_range (lo hi : ascii) (w : gostring) :
  matches (Star (Range lo hi)) w <->
  Forall (fun c => in_range lo hi c = true) w.
Proof.
  split.
  - intros H. remember (Star (Range lo hi)) as r eqn:R.
    induction H as [| | | | | | |r0 s1 s2 M1 _ M2 IH2]; try discriminate.
    + constructor.
    + inversion R; subst r0.
      apply matches_Range_inv in M1 as (c & -> & Hc).
      simpl. constructor; auto.
  - induction 1 as [|c w Hc _ IH].
    + constructor.
    + change (c :: w) with ([c] ++ w).
      constructor; [constructor; exact Hc | exact IH].
Qed.

(** ** [FindStringIndex]: leftmost, at a line start, longest *)

Section FindFacts.

Variable r : regex.

Lemma lbol_cons (b : bool) (c : ascii) (s : gostring) (k : nat) :
  lbol b (c :: s) (S k) <-> lbol (Ascii.eqb c LF) s k.
Proof.
  unfold lbol. split.
  - intros [[E _]|[_ H]]; [discriminate|].
    simpl in H. rewrite Nat.sub_0_r in H.
    destruct k as [|k].
    + left. simpl in H. inversion H. split; [reflexivity|apply Ascii.eqb_refl].
    + right. split; [lia|]. simpl. rewrite Nat.sub_0_r. exact H.
  - intros [[-> E]|[Hk H]]; right; split; try lia; simpl.
    + apply Ascii.eqb_eq in E. subst. reflexivity.
    + rewrite Nat.sub_0_r. destruct k; [lia|].
      simpl in H. rewrite Nat.sub_0_r in H. exact H.
Qed.

Lemma find_from_some (s : gostring) :
  forall pos b i j,
    find_from r s pos b = Some (i, j) ->
    exists k n,
      i = pos + k /\ j = pos + k + n /\ k <= length s /\
      lbol b s k /\ longest r (skipn k s) = Some n /\
      forall k', k' < k -> lbol b s k' -> longest r (skipn k' s) = None.
Proof.
  induction s as [|c s IH]; intros pos b i j H.
  - simpl in H.
    destruct b; [|discriminate].
    destruct (nullable r) eqn:N; inversion H; subst.
    exists 0, 0. simpl. rewrite N.
    repeat split; try lia. left; auto.
  - cbn [find_from] in H.
    destruct (if b then longest r (c :: s) else None) as [n|] eqn:Here.
    + inversion H; subst. exists 0, n.
      destruct b; [|discriminate].
      repeat split; try lia; [left; auto | exact Here].
    + apply IH in H as (k & n & -> & -> & Hk & Hb & L & Min).
      exists (S k), n. repeat split; try lia; try (simpl; lia).
      * apply lbol_cons. exact Hb.
      * exact L.
      * intros [|k'] Hlt Hb'.
        -- destruct Hb' as [[_ ->]|[F _]]; [exact Here|lia].
        -- simpl. apply Min; [lia|]. apply lbol_cons in Hb'. exact Hb'.
Qed.

Lemma find_from_none (s : gostring) :
  forall pos b,
    find_from r s pos b = None ->
    forall k, k <= length s -> lbol b s k -> longest r (skipn k s) = None.
Proof.
  induction s as [|c s IH]; intros pos b H k Hk Hb.
  - simpl in Hk. assert (k = 0) by lia. subst k.
    destruct Hb as [[_ ->]|[F _]]; [|lia].
    simpl in *. destruct (nullable r); [discriminate|reflexivity].
  - cbn [find_from] in H.
    destruct (if b then longest r (c :: s) else None) as [n|] eqn:Here;
      [discriminate|].
    destruct k as [|k].
    + destruct Hb as [[_ ->]|[F _]]; [exact Here|lia].
    + simpl. apply (IH _ _ H); [simpl in Hk; lia|].
      apply lbol_cons in Hb. exact Hb.
Qed.

Lemma find_from_found (s : gostring) :
  forall pos b k n,
    k <= length s -> lbol b s k -> longest r (skipn k s) = Some n ->
    exists i j, find_from r s pos b = Some (i, j).
Proof.
  intros pos b k n Hk Hb L.
  destruct (find_from r s pos b) as [[i j]|] eqn:F; [eauto|].
  rewrite (find_from_none s pos b F k Hk Hb) in L. discriminate.
Qed.

End FindFacts.

Lemma lbol_true (s : gostring) (k : nat) : lbol true s k <-> bol s k.
Proof.
  unfold lbol, bol. split.
  - intros [[-> _]|[_ H]]; auto.
  - intros [->|H]; [left; auto|].
    destruct k; [left; auto|right; split; [lia|exact H]].
Qed.

(** ** The macro scanner *)

Lemma macro_re_not_nullable : nullable macro_re = false.
Proof. reflexivity. Qed.

Lemma macro_re_length (w : gostring) : matches macro_re w -> 3 <= length w.
Proof.
  unfold macro_re, Plus. intros H.
  apply matches_Cat_inv in H as (a & b & -> & Ha & Hb).
  apply matches_Chr_inv in Ha. subst a.
  apply matches_Cat_inv in Hb as (u & sp & -> & Hu & Hsp).
  apply matches_Chr_inv in Hsp. subst sp.
  apply matches_Cat_inv in Hu as (u1 & u2 & -> & Hu1 & _).
  apply matches_Range_inv in Hu1 as (c & -> & _).
  simpl. rewrite !length_app. simpl. lia.
Qed.

Lemma find_macro_bounds (s : gostring) (i j : nat) :
  FindStringIndex macro_re s = Some (i, j) ->
  i + 3 <= j /\ j <= length s.
Proof.
  unfold FindStringIndex. intros H.
  apply find_from_some in H as (k & n & -> & -> & Hk & _ & L & _).
  apply longest_sound in L as [Hn M].
  apply macro_re_length in M.
  rewrite length_skipn in Hn.
  rewrite length_firstn, length_skipn in M. lia.
Qed.

Lemma nextmacroOffset_total (data : gostring) (off : nat) :
  off <= length data -> exists r, nextmacroOffset data off = Ok r.
Proof.
  intros H. unfold nextmacroOffset.
  rewrite slice_from_ok by exact H. simpl.
  destruct (FindStringIndex macro_re (skipn off data)) as [[i j]|] eqn:F;
    [|eauto].
  apply find_macro_bounds in F as [F1 F2]. rewrite length_skipn in F2.
  simpl. rewrite slice_ok by lia. simpl. eauto.
Qed.

Lemma nextmacroOffset_bounds (data : gostring) (off : nat) (m : macro) :
  nextmacroOffset data off = Ok (Some m) ->
  off <= mstart m /\ mstart m + 3 <= mend m /\ mend m <= length data.
Proof.
  unfold nextmacroOffset, slice_from. intros H.
  destruct (slice data off (length data)) as [rest| |] eqn:S; try discriminate.
  apply slice_inv in S as (Hoff & _ & ->). simpl in H.
  assert (E : firstn (length data - off) (skipn off data) = skipn off data).
  { apply firstn_all2. rewrite length_skipn. lia. }
  rewrite E in H.
  destruct (FindStringIndex macro_re (skipn off data)) as [[i j]|] eqn:F;
    [|discriminate].
  apply find_macro_bounds in F as [F1 F2]. rewrite length_skipn in F2.
  simpl in H.
  destruct (slice data (off + i + 1) (off + j - 1)); try discriminate.
  simpl in H. inversion H; subst. unfold mstart, mend. simpl. lia.
Qed.

Lemma macro_seq_sorted (data : gostring) (fuel : nat) :
  forall off,
    StronglySorted starts_before (macro_seq fuel data (nextmacroOffset data off))
    /\ Forall (fun m => off <= mstart m)
         (macro_seq fuel data (nextmacroOffset data off)).
Proof.
  induction fuel as [|fuel IH]; intros off; cbn [macro_seq].
  - split; constructor.
  - destruct (nextmacroOffset data off) as [[m|]| |] eqn:E;
      try (split; constructor; fail).
    apply nextmacroOffset_bounds in E as (B1 & B2 & B3).
    unfold nextmacro. destruct (IH (snd (loc m))) as [S1 S2].
    split; constructor; auto.
    + eapply Forall_impl; [|exact S2].
      intros a Ha. unfold starts_before. unfold mend in B2. simpl in Ha. lia.
    + eapply Forall_impl; [|exact S2].
      intros a Ha. unfold mend in B2. simpl in Ha. lia.
Qed.

Lemma macro_seq_short (data : gostring) (fuel : nat) :
  forall off,
    3 * length (macro_seq fuel data (nextmacroOffset data off))
    <= length data - off.
Proof.
  induction fuel as [|fuel IH]; intros off; cbn [macro_seq]; [simpl; lia|].
  destruct (nextmacroOffset data off) as [[m|]| |] eqn:E;
    cbn [length]; try lia.
  apply nextmacroOffset_bounds in E as (B1 & B2 & B3).
  unfold nextmacro. specialize (IH (snd (loc m))).
  unfold mend in *. lia.
Qed.

Lemma macro_seq_in (data : gostring) (fuel : nat) :
  forall off m,
    In m (macro_seq fuel data (nextmacroOffset data off)) ->
    off <= mstart m /\ mstart m + 3 <= mend m /\ mend m <= length data.
Proof.
  induction fuel as [|fuel IH]; intros off m; cbn [macro_seq]; [intros []|].
  destruct (nextmacroOffset data off) as [[m0|]| |] eqn:E; try (intros []; fail).
  pose proof (nextmacroOffset_bounds _ _ _ E) as (B1 & B2 & B3).
  intros [->|H]; [auto|].
  unfold nextmacro in H. apply IH in H. unfold mend in *. lia.
Qed.

(** C6.  For every macro [m] the scanner produced: [nextmacro] is
    [nextmacroOffset] at the end offset of [m] and it does not fault; a macro
    it yields starts at or after the end of [m], hence strictly after the
    start of [m]; and the macros obtained by repeating [nextmacro] from [m]
    on have strictly increasing start offsets, and are at most
    [len(data)] many. *)
Theorem macro_iteration_monotonic
  (data : gostring) (off : nat) (m : macro)
  (Hm : nextmacroOffset data off = Ok (Some m)) :
  nextmacro data m = nextmacroOffset data (mend m)
  /\ (exists r, nextmacro data m = Ok r)
  /\ (forall m', nextmacro data m = Ok (Some m') ->
        mend m <= mstart m' /\ mstart m < mstart m')
  /\ (forall fuel,
        StronglySorted starts_before (macro_seq fuel data (Ok (Some m)))
        /\ length (macro_seq fuel data (Ok (Some m))) <= length data).
Proof.
  pose proof (nextmacroOffset_bounds _ _ _ Hm) as (B1 & B2 & B3).
  split; [reflexivity|].
  split; [apply nextmacroOffset_total; exact B3|].
  split.
  - intros m' H'. apply nextmacroOffset_bounds in H' as (C1 & _ & _).
    fold (mend m) in C1. lia.
  - intros fuel. rewrite <- Hm.
    split; [apply macro_seq_sorted|].
    pose proof (macro_seq_short data fuel off). lia.
Qed.

Lemma macro_iteration_monotonic_witness :
  nextmacroOffset page_sample 0 = Ok (Some (mkMacro (0, 4) sh_macro))
  /\ (nextmacro page_sample (mkMacro (0, 4) sh_macro)
      = nextmacroOffset page_sample 4
      /\ (exists r, nextmacro page_sample (mkMacro (0, 4) sh_macro) = Ok r)
      /\ (forall m', nextmacro page_sample (mkMacro (0, 4) sh_macro)
                     = Ok (Some m') ->
                     4 <= mstart m' /\ 0 < mstart m')
      /\ (forall fuel,
            StronglySorted starts_before
              (macro_seq fuel page_sample
                 (Ok (Some (mkMacro (0, 4) sh_macro))))
            /\ length (macro_seq fuel page_sample
                         (Ok (Some (mkMacro (0, 4) sh_macro))))
               <= length page_sample)).
Proof.
  split; [vm_compute; reflexivity|].
  apply (macro_iteration_monotonic page_sample 0 (mkMacro (0, 4) sh_macro)).
  vm_compute; reflexivity.
Defined.

(** ** The section locator *)

(** The heading text [findSection] looks for: [.SH], any number of spaces
    and a text that [name] matches. *)
Lemma section_re_shape (name : regex) (w : gostring) :
  matches (section_re name) w <->
  exists k w', w = str ".SH" ++ repeat SP k ++ w' /\ matches name w'.
Proof.
  unfold section_re. split.
  - intros H.
    apply matches_Cat_inv in H as (a & b & -> & Ha & Hb).
    apply matches_lit in Ha. subst a.
    apply matches_Cat_inv in Hb as (sp & w' & -> & Hsp & Hw).
    apply matches_star_chr in Hsp as [k ->].
    exists k, w'. auto.
  - intros (k & w' & -> & Hw).
    constructor; [apply matches_lit; reflexivity|].
    constructor; [apply matches_star_chr; eauto | exact Hw].
Qed.

Lemma findSection_bound (data : gostring) (name : regex) (e : nat) :
  findSection data name = inl e -> e <= length data.
Proof.
  unfold findSection, FindStringIndex.
  destruct (find_from (section_re name) data 0 true) as [[i j]|] eqn:F;
    [|discriminate].
  intros H. inversion H; subst.
  apply find_from_some in F as (k & n & _ & -> & Hk & _ & L & _).
  apply longest_sound in L as [Hn _]. rewrite length_skipn in Hn. lia.
Qed.

(** C8 (as amended).  [findSection] returns the offset immediately after the
    heading text it matched, which is the longest text of the form [.SH],
    spaces, name at the first line that begins with such a text; what follows
    on that line is not skipped.  It fails exactly when no line of the
    document begins with such a text. *)
Theorem findSection_spec (data : gostring) (name : regex) :
  (forall e,
     findSection data name = inl e <->
     exists i,
       bol data i /\ i <= e /\ e <= length data /\
       matches (section_re name) (sub data i e) /\
       (forall e', e < e' -> e' <= length data ->
                   ~ matches (section_re name) (sub data i e')) /\
       (forall i' e', i' < i -> bol data i' -> i' <= e' -> e' <= length data ->
                      ~ matches (section_re name) (sub data i' e')))
  /\
  ((exists err, findSection data name = inr err) <->
   (forall i e, bol data i -> i <= e -> e <= length data ->
                ~ matches (section_re name) (sub data i e)))
  /\
  (forall w, matches (section_re name) w <->
             exists k w', w = str ".SH" ++ repeat SP k ++ w' /\ matches name w').
Proof.
  assert (Fwd : forall i j,
             FindStringIndex (section_re name) data = Some (i, j) ->
             bol data i /\ i <= j /\ j <= length data /\
             matches (section_re name) (sub data i j) /\
             (forall e', j < e' -> e' <= length data ->
                         ~ matches (section_re name) (sub data i e')) /\
             (forall i' e', i' < i -> bol data i' -> i' <= e' ->
                            e' <= length data ->
                            ~ matches (section_re name) (sub data i' e'))).
  { intros i j F. unfold FindStringIndex in F.
    apply find_from_some in F as (k & n & -> & -> & Hk & Hb & L & Min).
    simpl. pose proof (longest_sound _ _ _ L) as [Hn M].
    rewrite length_skipn in Hn.
    split; [apply lbol_true; exact Hb|].
    split; [lia|]. split; [lia|].
    split; [unfold sub; replace (k + n - k) with n by lia; exact M|].
    split.
    - intros e' H1 H2. unfold sub.
      apply (longest_max _ _ _ L); [lia | rewrite length_skipn; lia].
    - intros i' e' H1 H2 H3 H4. unfold sub.
      apply longest_none; [|rewrite length_skipn; lia].
      apply Min; [exact H1 | apply lbol_true; exact H2]. }
  assert (None_ : FindStringIndex (section_re name) data = None ->
                  forall i e, bol data i -> i <= e -> e <= length data ->
                              ~ matches (section_re name) (sub data i e)).
  { intros F i e Hb H1 H2. unfold sub.
    apply longest_none; [|rewrite length_skipn; lia].
    apply (find_from_none _ _ _ _ F); [lia | apply lbol_true; exact Hb]. }
  split; [|split].
  - intros e. unfold findSection.
    destruct (FindStringIndex (section_re name) data) as [[i j]|] eqn:F.
    + destruct (Fwd i j eq_refl) as (B & H1 & H2 & M & Mx & Lm).
      split.
      * intros E. inversion E; subst. exists i. auto 10.
      * intros (i0 & B0 & G1 & G2 & M0 & Mx0 & Lm0).
        assert (i0 = i).
        { destruct (Nat.lt_trichotomy i0 i) as [Hlt|[Heq|Hgt]]; [|exact Heq|].
          - exfalso. exact (Lm i0 e Hlt B0 G1 G2 M0).
          - exfalso. exact (Lm0 i j Hgt B H1 H2 M). }
        subst i0.
        assert (e = j).
        { destruct (Nat.lt_trichotomy e j) as [Hlt|[Heq|Hgt]]; [|exact Heq|].
          - exfalso. exact (Mx0 j Hlt H2 M).
          - exfalso. exact (Mx e Hgt G2 M0). }
        subst. reflexivity.
    + split; [discriminate|].
      intros (i0 & B0 & G1 & G2 & M0 & _).
      exfalso. exact (None_ eq_refl i0 e B0 G1 G2 M0).
  - unfold findSection.
    destruct (FindStringIndex (section_re name) data) as [[i j]|] eqn:F.
    + destruct (Fwd i j eq_refl) as (B & H1 & H2 & M & _).
      split; [intros [err E]; discriminate|].
      intros H. exfalso. exact (H i j B H1 H2 M).
    + split; [intros _; apply None_; reflexivity | eauto].
  - apply section_re_shape.
Qed.

(** C8, the claim as stated fails: for the heading line [.SH NAMES] the
    offset returned for NAME is [8], inside the line - neither at its end
    nor at the start of the next line. *)
Lemma findSection_inside_heading_line :
  findSection page_names NAME = inl 8
  /\ ~ after_line page_names 8.
Proof.
  split; [vm_compute; reflexivity|].
  unfold after_line. vm_compute.
  intros [H|[H|[_ H]]]; discriminate H.
Qed.

(** ** What [stripmacros] removes *)

(** The texts [`\.[A-Z]+ *`] matches: a dot, capital letters (at least
    one), spaces. *)
Lemma strip_re_shape (w : gostring) :
  matches strip_re w <->
  exists u k,
    w = "."%char :: u ++ repeat SP k /\ u <> [] /\
    Forall (fun c => is_upper c = true) u.
Proof.
  unfold strip_re, Plus, is_upper. split.
  - intros H.
    apply matches_Cat_inv in H as (a & b & -> & Ha & Hb).
    apply matches_Chr_inv in Ha. subst a.
    apply matches_Cat_inv in Hb as (u & sp & -> & Hu & Hsp).
    apply matches_star_chr in Hsp as [k ->].
    apply matches_Cat_inv in Hu as (u1 & u2 & -> & Hu1 & Hu2).
    apply matches_Range_inv in Hu1 as (c & -> & Hc).
    apply matches_star_range in Hu2.
    exists ([c] ++ u2), k. repeat split; [discriminate|].
    constructor; assumption.
  - intros (u & k & -> & Hne & Hu).
    change ("."%char :: u ++ repeat SP k) with (["."%char] ++ (u ++ repeat SP k)).
    constructor; [constructor|].
    constructor; [|apply matches_star_chr; eauto].
    destruct u as [|c u]; [congruence|].
    inversion Hu; subst.
    change (c :: u) with ([c] ++ u).
    constructor; [constructor; assumption | apply matches_star_range; assumption].
Qed.

Lemma run_length_app (p : ascii -> bool) (u t : gostring) :
  Forall (fun c => p c = true) u ->
  run_length p (u ++ t) = length u + run_length p t.
Proof.
  induction 1 as [|c u Hc _ IH]; simpl; [reflexivity|].
  rewrite Hc, IH. reflexivity.
Qed.

Lemma run_length_split (p : ascii -> bool) (s : gostring) :
  exists u t,
    s = u ++ t /\ length u = run_length p s /\
    Forall (fun c => p c = true) u /\
    run_length p t = 0.
Proof.
  induction s as [|c s (u & t & E & L & F & Z)]; simpl.
  - exists [], []. repeat split; constructor.
  - destruct (p c) eqn:Pc.
    + exists (c :: u), t. subst s. simpl. repeat split; auto.
    + exists [], (c :: s). simpl. rewrite Pc. repeat split; constructor.
Qed.

Lemma run_length_le (p : ascii -> bool) (s : gostring) :
  run_length p s <= length s.
Proof. induction s as [|c s IH]; simpl; [lia|]. destruct (p c); lia. Qed.

Lemma run_length_stop (p : ascii -> bool) (u t : gostring) (c : ascii) :
  p c = false -> run_length p (u ++ c :: t) = run_length p u.
Proof.
  intros Hc. induction u as [|x u IH]; simpl.
  - rewrite Hc. reflexivity.
  - rewrite IH. reflexivity.
Qed.

Lemma all_sp_repeat (u : gostring) :
  Forall (fun c => is_sp c = true) u -> u = repeat SP (length u).
Proof.
  induction 1 as [|c u Hc _ IH]; simpl; [reflexivity|].
  apply Ascii.eqb_eq in Hc. subst c. f_equal. exact IH.
Qed.

Lemma repeat_sp_all (k : nat) : Forall (fun c => is_sp c = true) (repeat SP k).
Proof. induction k; simpl; constructor; auto. Qed.

(** The token is a match of the pattern ... *)
Lemma token_matches (s : gostring) :
  0 < token_len s ->
  token_len s <= length s /\ matches strip_re (firstn (token_len s) s).
Proof.
  unfold token_len. destruct s as [|c s]; [simpl; lia|].
  destruct (Ascii.eqb_spec c ".") as [->|]; [|simpl; lia].
  destruct (run_length_split is_upper s) as (u & t & E & Lu & Fu & _).
  rewrite <- Lu.
  destruct (Nat.eqb_spec (length u) 0) as [|Hu]; [lia|]. intros _.
  assert (Sk : skipn (length u) s = t).
  { subst s. rewrite skipn_app, Nat.sub_diag, skipn_all. reflexivity. }
  rewrite Sk.
  destruct (run_length_split is_sp t) as (sp & t' & E' & Lsp & Fsp & _).
  rewrite <- Lsp. subst s t. split.
  - simpl. rewrite !length_app. lia.
  - apply strip_re_shape. exists u, (length sp).
    split; [|split; [destruct u; [simpl in Hu; lia|discriminate]|exact Fu]].
    cbn [Nat.add firstn]. f_equal.
    rewrite firstn_app, firstn_all2 by lia.
    replace (length u + length sp - length u) with (length sp) by lia.
    rewrite firstn_app, firstn_all, Nat.sub_diag. simpl.
    rewrite app_nil_r. f_equal. apply all_sp_repeat. exact Fsp.
Qed.

(** ... and no longer prefix is one. *)
Lemma token_longest (s : gostring) (m : nat) :
  m <= length s -> matches strip_re (firstn m s) ->
  0 < token_len s /\ m <= token_len s.
Proof.
  intros Hm M. apply strip_re_shape in M as (u & k & E & Hne & Fu).
  destruct s as [|c s]; [destruct m; discriminate E|].
  destruct m as [|m]; [discriminate E|].
  simpl in E. inversion E as [[Ec E']]. subst c. clear E.
  assert (S' : s = u ++ repeat SP k ++ skipn m s).
  { rewrite <- (firstn_skipn m s) at 1. rewrite E', <- app_assoc. reflexivity. }
  assert (Lm : m = length u + k).
  { apply (f_equal (@length ascii)) in E'.
    rewrite length_firstn, length_app, repeat_length in E'.
    simpl in Hm. lia. }
  unfold token_len. cbv zeta. rewrite Ascii.eqb_refl.
  assert (Lu : 0 < length u) by (destruct u; [congruence|simpl; lia]).
  assert (K : run_length is_upper s
              = length u + run_length is_upper (repeat SP k ++ skipn m s)).
  { rewrite S' at 1. apply run_length_app. exact Fu. }
  assert (Sk : skipn (length u) s = repeat SP k ++ skipn m s).
  { rewrite S' at 1. rewrite skipn_app, Nat.sub_diag, skipn_all. reflexivity. }
  destruct k as [|k].
  - destruct (Nat.eqb_spec (run_length is_upper s) 0); lia.
  - simpl in K. change (is_upper SP) with false in K. cbn iota in K.
    rewrite Nat.add_0_r in K. rewrite K, Sk.
    rewrite run_length_app by apply repeat_sp_all.
    rewrite repeat_length.
    destruct (Nat.eqb_spec (length u) 0); lia.
Qed.

Lemma longest_strip_re (s : gostring) :
  longest strip_re s
  = if token_len s =? 0 then None else Some (token_len s).
Proof.
  destruct (Nat.eqb_spec (token_len s) 0) as [Z|NZ].
  - destruct (longest strip_re s) as [n|] eqn:L; [|reflexivity].
    apply longest_sound in L as [Hn M].
    apply token_longest in M; [lia | exact Hn].
  - destruct (token_matches s) as [Hl M]; [lia|].
    destruct (longest_complete _ _ _ Hl M) as (n & L & Hn).
    rewrite L. f_equal.
    apply longest_sound in L as [Hn' M'].
    apply token_longest in M'; [lia | exact Hn'].
Qed.

(** The token of a text is the token of its first line. *)
Lemma token_len_line (l rest : gostring) :
  token_len (l ++ LF :: rest) = token_len l.
Proof.
  unfold token_len. destruct l as [|c l]; [reflexivity|].
  cbn [app]. destruct (Ascii.eqb c "."); [|reflexivity].
  cbv zeta. rewrite (run_length_stop is_upper l rest LF) by reflexivity.
  destruct (run_length is_upper l =? 0); [reflexivity|].
  rewrite skipn_app.
  replace (run_length is_upper l - length l) with 0
    by (pose proof (run_length_le is_upper l); lia).
  cbn [skipn].
  rewrite (run_length_stop is_sp _ rest LF) by reflexivity.
  reflexivity.
Qed.

(** The deleting loop, line by line: away from a line start the rest of
    the line is copied; at a line start the token goes first. *)
Lemma delete_from_lines (fuel : nat) :
  forall s, length s < fuel ->
    (forall l0 ls, strings.Split s LF = l0 :: ls ->
       delete_from fuel strip_re s false = Join (l0 :: map strip_line ls) LF)
    /\ delete_from fuel strip_re s true
       = Join (map strip_line (strings.Split s LF)) LF.
Proof.
  induction fuel as [|fuel IH]; intros s Hf; [lia|].
  assert (A : forall l0 ls, strings.Split s LF = l0 :: ls ->
            delete_from (S fuel) strip_re s false
            = Join (l0 :: map strip_line ls) LF).
  { intros l0 ls E. cbn [delete_from].
    destruct s as [|c s].
    - simpl in E. inversion E; subst. reflexivity.
    - simpl in Hf. destruct (IH s ltac:(lia)) as [IHa IHb].
      simpl in E. destruct (Ascii.eqb_spec c LF) as [->|Hc].
      + inversion E; subst. rewrite IHb.
        destruct (Split_first s) as (l1 & ls1 & -> & _). reflexivity.
      + destruct (strings.Split s LF) as [|l1 ls1] eqn:E1.
        * destruct (Split_first s) as (? & ? & F & _). congruence.
        * injection E as <- <-.
          rewrite (IHa l1 ls1 eq_refl). rewrite Join_cons_char. reflexivity. }
  split; [exact A|].
  destruct (Split_first s) as (l0 & ls & E & N & C).
  assert (T : token_len s = token_len l0).
  { destruct C as [[-> _]|(rest & -> & _)];
      [reflexivity | apply token_len_line]. }
  rewrite E. cbn [map].
  cbn [delete_from]. rewrite longest_strip_re.
  destruct (Nat.eqb_spec (token_len s) 0) as [Z|NZ].
  - specialize (A l0 ls E). cbn [delete_from] in A. rewrite A.
    unfold strip_line at 2. rewrite <- T, Z. reflexivity.
  - destruct (token_len s) as [|n] eqn:Tn; [lia|].
    destruct (token_matches l0) as [Hl _]; [lia|].
    assert (Hnth : Ascii.eqb (nth n s SP) LF = false).
    { apply Ascii.eqb_neq. intros F. apply N. rewrite <- F.
      replace (nth n s SP) with (nth n l0 SP).
      - apply nth_In. lia.
      - destruct C as [[-> _]|(rest & -> & _)]; [reflexivity|].
        rewrite app_nth1 by lia. reflexivity. }
    rewrite Hnth.
    assert (Hls : length l0 <= length s).
    { destruct C as [[-> _]|(rest & -> & _)]; [lia|].
      rewrite length_app. lia. }
    assert (Hlen : length (skipn (S n) s) < fuel).
    { rewrite length_skipn. lia. }
    destruct (IH _ Hlen) as [IHa _].
    assert (E' : strings.Split (skipn (S n) s) LF = skipn (S n) l0 :: ls).
    { assert (N' : ~ In LF (skipn (S n) l0)).
      { intros F. apply N. rewrite <- (firstn_skipn (S n) l0).
        apply in_or_app. right. exact F. }
      destruct C as [[-> ->]|(rest & -> & ->)].
      - apply Split_no_sep. exact N'.
      - rewrite skipn_app.
        replace (S n - length l0) with 0 by lia. cbn [skipn].
        apply Split_line. exact N'. }
    rewrite (IHa _ _ E'). unfold strip_line at 2. rewrite <- T.
    reflexivity.
Qed.

(** [stripmacros] removes, from every line that starts with a macro token,
    that token and nothing else. *)
Lemma stripmacros_linewise (s : gostring) :
  Part003.stripmacros s = Join (map strip_line (strings.Split s LF)) LF.
Proof.
  unfold Part003.stripmacros, ReplaceAllString_empty.
  apply delete_from_lines. lia.
Qed.

Lemma strip_line_suffix (l : gostring) :
  exists tok,
    l = tok ++ strip_line l /\ (tok = [] \/ matches strip_re tok).
Proof.
  unfold strip_line. exists (firstn (token_len l) l).
  split; [symmetry; apply firstn_skipn|].
  destruct (token_len l) as [|n] eqn:T; [left; reflexivity|].
  right. rewrite <- T. apply token_matches. lia.
Qed.

(** ** The section extractor *)

Lemma skip_to_sh_find (data : gostring) :
  forall fuel off mc,
    nextmacroOffset data off = Ok mc ->
    length data <= fuel + off ->
    skip_to_sh fuel data mc
    = Ok (find is_sh (macro_seq (S fuel) data (Ok mc))).
Proof.
  induction fuel as [|fuel IH]; intros off mc E Hf.
  - destruct mc as [m|]; [|reflexivity].
    apply nextmacroOffset_bounds in E as (B1 & B2 & B3).
    lia.
  - destruct mc as [m|]; [|reflexivity].
    pose proof (nextmacroOffset_bounds _ _ _ E) as (B1 & B2 & B3).
    cbn [skip_to_sh macro_seq find]. unfold is_sh at 1.
    destruct (macro_type_eqb (mtype m) sh_macro); [reflexivity|].
    destruct (nextmacroOffset_total data (mend m) B3) as [mc' E'].
    unfold nextmacro. fold (mend m). rewrite E'. cbn [bind].
    apply (IH (mend m)); [exact E' | lia].
Qed.

Lemma section_text_ok (data : gostring) (start : nat) :
  start <= length data ->
  section_text data start = Ok (section_body data start).
Proof.
  intros Hs. unfold section_text, section_body, section_stop, sub.
  destruct (nextmacroOffset_total data start Hs) as [mc E].
  rewrite E. cbn [bind].
  rewrite (skip_to_sh_find data (length data) start mc E) by lia.
  cbn [bind].
  destruct (find is_sh (macro_seq (S (length data)) data (Ok mc))) as [m|] eqn:F.
  - apply find_some in F as [Hin _].
    rewrite <- E in Hin. apply macro_seq_in in Hin as (B1 & B2 & B3).
    unfold mstart, mend in *. apply slice_ok; lia.
  - unfold slice_from. apply slice_ok; lia.
Qed.

Lemma section_stop_spec (d : gostring) (start : nat) :
  start <= length d ->
  let scan := macro_seq (S (length d)) d (nextmacroOffset d start) in
  start <= section_stop d start /\ section_stop d start <= length d /\
  (forall x, In x scan -> mstart x < section_stop d start -> is_sh x = false) /\
  ((section_stop d start = length d /\ forall x, In x scan -> is_sh x = false)
   \/ (exists x, In x scan /\ is_sh x = true /\ mstart x = section_stop d start)).
Proof.
  intros Hs scan. unfold section_stop. fold scan.
  pose proof (macro_seq_sorted d (S (length d)) start) as [Sorted _].
  fold scan in Sorted.
  assert (Bounds : forall x, In x scan ->
            start <= mstart x /\ mstart x + 3 <= mend x /\ mend x <= length d).
  { intros x. apply macro_seq_in. }
  clearbody scan.
  induction scan as [|m0 scan IH]; cbn [find].
  - repeat split; try lia; [intros x []|]. left. split; [reflexivity|intros x []].
  - destruct (is_sh m0) eqn:Sh.
    + pose proof (Bounds m0 (or_introl eq_refl)) as (B1 & B2 & B3).
      fold (mstart m0). repeat split; try lia.
      * intros x [<-|Hin] Hlt; [lia|].
        apply StronglySorted_inv in Sorted as [_ F].
        rewrite Forall_forall in F. specialize (F x Hin).
        unfold starts_before in F. lia.
      * right. exists m0. simpl. auto.
    + apply StronglySorted_inv in Sorted as [Sorted' F].
      destruct (IH Sorted') as (I1 & I2 & I3 & I4).
      { intros x Hx. apply Bounds. right. exact Hx. }
      repeat split; try assumption.
      * intros x [<-|Hin] Hlt; [exact Sh | apply I3; assumption].
      * destruct I4 as [[E N]|(x & Hin & Hx & E)].
        -- left. split; [exact E|]. intros x [<-|Hin]; auto.
        -- right. exists x. simpl. auto.
Qed.

Lemma Part003_getSection_ok (m : ManPage) (name : regex) :
  Part003.getSection m name
  = Ok (strings.TrimSpace
          match findSection (data m) name with
          | inl start => Part003.stripmacros (section_body (data m) start)
          | inr _ => str "N/A"
          end).
Proof.
  unfold Part003.getSection.
  destruct (findSection (data m) name) as [start|err] eqn:F; [|reflexivity].
  rewrite section_text_ok by (eapply findSection_bound; eauto).
  reflexivity.
Qed.

Lemma GomanGo_getSection_ok (m : ManPage) (name : regex) :
  GomanGo.getSection m name
  = Ok (strings.TrimSpace
          match findSection (data m) name with
          | inl start => section_body (data m) start
          | inr _ => str "N/A"
          end).
Proof.
  unfold GomanGo.getSection.
  destruct (findSection (data m) name) as [start|err] eqn:F; [|reflexivity].
  rewrite section_text_ok by (eapply findSection_bound; eauto).
  reflexivity.
Qed.

Lemma Part003_getSection_eq (m : ManPage) (name : regex) :
  Part003.getSection m name
  = Ok (section_or_sentinel Part003.stripmacros (data m) name).
Proof. apply Part003_getSection_ok. Qed.

Lemma GomanGo_getSection_eq (m : ManPage) (name : regex) :
  GomanGo.getSection m name
  = Ok (section_or_sentinel (fun s => s) (data m) name).
Proof. apply GomanGo_getSection_ok. Qed.

(** C4 (as amended).  [getSection] never fails: in both revisions, for every
    record and every section name, it returns a string - no run-time fault,
    and the loop ends.  It returns ["N/A"] whenever [findSection] fails for
    the name; and it returns ["N/A"] only if [findSection] fails or the
    located section, stripped (in the revision that strips) and trimmed,
    reads ["N/A"] itself. *)
Theorem getSection_sentinel (m : ManPage) (name : regex) :
  (exists r, GomanGo.getSection m name = Ok r)
  /\
  (exists r, Part003.getSection m name = Ok r)
  /\
  (GomanGo.getSection m name = Ok (str "N/A") <->
     (exists err, findSection (data m) name = inr err) \/
     (exists start, findSection (data m) name = inl start /\
        strings.TrimSpace (section_body (data m) start) = str "N/A"))
  /\
  (Part003.getSection m name = Ok (str "N/A") <->
     (exists err, findSection (data m) name = inr err) \/
     (exists start, findSection (data m) name = inl start /\
        strings.TrimSpace (Part003.stripmacros (section_body (data m) start))
        = str "N/A")).
Proof.
  rewrite GomanGo_getSection_ok, Part003_getSection_ok.
  split; [eexists; reflexivity|].
  split; [eexists; reflexivity|].
  destruct (findSection (data m) name) as [start|err]; split; split.
  - intros H. inversion H as [E]. right. exists start. rewrite E. auto.
  - intros [[err H]|[s [H E]]]; [discriminate|].
    inversion H; subst. rewrite E. reflexivity.
  - intros H. inversion H as [E]. right. exists start. rewrite E. auto.
  - intros [[err H]|[s [H E]]]; [discriminate|].
    inversion H; subst. rewrite E. reflexivity.
  - intros _. left. eauto.
  - intros _. reflexivity.
  - intros _. left. eauto.
  - intros _. reflexivity.
Qed.

(** C4, the claim as stated fails: the NAME section is found, and
    [getSection] returns ["N/A"] because that is what the section reads. *)
Lemma getSection_sentinel_of_found_section :
  findSection page_na NAME = inl 8
  /\ Part003.getSection (set_data fresh page_na) NAME = Ok (str "N/A")
  /\ GomanGo.getSection (set_data fresh page_na) NAME = Ok (str "N/A").
Proof. repeat split; vm_compute; reflexivity. Qed.

(** C3 (as amended).  For every located section, [getSection] (revision
    [part_003]) returns the text from the section start up to (exclusive)
    the start of the first [.SH] macro the scanner yields from there, or to
    the end of the document if it yields none, in which every line that
    starts with a macro token - a dot, capital letters and the spaces after
    them - has lost that token and kept the rest of the line, with the
    surrounding white space trimmed. *)
Theorem getSection_body
  (m : ManPage) (name : regex) (start : nat)
  (Hfound : findSection (data m) name = inl start) :
  let d := data m in
  let scan := macro_seq (S (length d)) d (nextmacroOffset d start) in
  let body := sub d start (section_stop d start) in
  Part003.getSection m name
  = Ok (strings.TrimSpace (Join (map strip_line (strings.Split body LF)) LF))
  /\ (forall l, exists tok,
        l = tok ++ strip_line l /\ (tok = [] \/ matches strip_re tok))
  /\ start <= section_stop d start /\ section_stop d start <= length d
  /\ (forall x, In x scan -> mstart x < section_stop d start -> is_sh x = false)
  /\ ((section_stop d start = length d /\ forall x, In x scan -> is_sh x = false)
      \/ (exists x, In x scan /\ is_sh x = true
                    /\ mstart x = section_stop d start)).
Proof.
  intros d scan body.
  pose proof (findSection_bound _ _ _ Hfound) as Hs.
  split.
  - rewrite Part003_getSection_ok, Hfound, stripmacros_linewise.
    reflexivity.
  - split; [exact strip_line_suffix|].
    apply section_stop_spec. exact Hs.
Qed.

Lemma getSection_body_witness :
  findSection (data (set_data fresh page_bold_desc)) DESCRIPTION = inl 15
  /\ Part003.getSection (set_data fresh page_bold_desc) DESCRIPTION
     = Ok (strings.TrimSpace
             (Join (map strip_line
                      (strings.Split
                         (sub page_bold_desc 15
                            (section_stop page_bold_desc 15)) LF)) LF)).
Proof.
  assert (H : findSection (data (set_data fresh page_bold_desc)) DESCRIPTION
              = inl 15) by (vm_compute; reflexivity).
  split; [exact H|].
  exact (proj1 (getSection_body (set_data fresh page_bold_desc)
                  DESCRIPTION 15 H)).
Defined.

(** C3, the claim as stated fails: of the macro line [.B bold text] only the
    token [.B ] is removed, the rest of the line stays in the description. *)
Lemma getSection_keeps_macro_line_text :
  findSection page_bold_desc DESCRIPTION = inl 15
  /\ Part003.getSection (set_data fresh page_bold_desc) DESCRIPTION
     = Ok (unlines ["bold text"; "plain"])
  /\ strings.TrimSpace (spec_strip_lines (section_body page_bold_desc 15))
     = str "plain"
  /\ unlines ["bold text"; "plain"] <> str "plain".
Proof.
  split; [vm_compute; reflexivity|].
  split; [vm_compute; reflexivity|].
  split; [vm_compute; reflexivity|discriminate].
Qed.

(** ** The field parsers *)

Lemma Part003_parseName_eq (m : ManPage) :
  Part003.parseName m
  = Ok (set_Name m
          (strings.TrimRight
             (first_token (section_or_sentinel Part003.stripmacros (data m) NAME))
             name_cutset)).
Proof.
  unfold Part003.parseName. rewrite Part003_getSection_eq. cbn [bind].
  destruct (Split_first_token
              (section_or_sentinel Part003.stripmacros (data m) NAME))
    as [ls ->].
  reflexivity.
Qed.

Lemma GomanGo_parseName_eq (m : ManPage) :
  GomanGo.parseName m
  = Ok (set_Name m
          (first_token (section_or_sentinel (fun s => s) (data m) NAME))).
Proof.
  unfold GomanGo.parseName. rewrite GomanGo_getSection_eq. cbn [bind].
  destruct (Split_first_token
              (section_or_sentinel (fun s => s) (data m) NAME))
    as [ls ->].
  reflexivity.
Qed.

(** C7 (as amended).  [parseName] always succeeds and sets [Name] to the
    text of the NAME section up to its first space, with the backslashes,
    commas and spaces at the end of that token removed.  The name has no
    space in it and does not end in a backslash, a comma or a space; a NAME
    line [foo\, bar] gives [foo].  (An escape inside the first token is not
    at its end and stays.) *)
Theorem parseName_trims (m : ManPage) :
  exists name,
    Part003.parseName m = Ok (set_Name m name)
    /\ name = strings.TrimRight
                (first_token
                   (section_or_sentinel Part003.stripmacros (data m) NAME))
                name_cutset
    /\ ~ In SP name
    /\ (forall pre c, name = pre ++ [c] ->
                      c <> "\"%char /\ c <> ","%char /\ c <> SP)
    /\ Part003.parseName (set_data fresh page_foo_sp)
       = Ok (set_Name (set_data fresh page_foo_sp) (str "foo")).
Proof.
  eexists. split; [apply Part003_parseName_eq|].
  split; [reflexivity|]. split; [|split].
  - intros H. apply TrimRight_incl in H.
    exact (first_token_no_space _ H).
  - intros pre c H. apply TrimRight_last in H.
    repeat split; intros ->; discriminate H.
  - vm_compute. reflexivity.
Qed.

(** C7, the claim as stated fails: the NAME line [foo\,bar] has no space, the
    whole line is the first token, it ends in [r] and nothing is trimmed. *)
Lemma parseName_escape_inside_token :
  result_map Name (Part003.parse fresh page_foo) = Ok (str "foo\,bar")
  /\ str "foo\,bar" <> str "foo".
Proof. split; [vm_compute; reflexivity | discriminate]. Qed.

(** After the three field parsers only [parseOpts] is left to run, on a
    record whose text fields are functions of the normalized document. *)
Lemma Part003_parse_fields (m : ManPage) (d : gostring) :
  Part003.parse m d
  = let d' := strings.ReplaceCR d in
    let sec := section_or_sentinel Part003.stripmacros d' in
    Part003.parseOpts
      (mkManPage (strings.TrimRight (first_token (sec NAME)) name_cutset)
                 (Path m) (sec DESCRIPTION) (sec SYNOPSIS) d' (Opts m)).
Proof.
  unfold Part003.parse. rewrite Part003_parseName_eq. cbn [bind].
  unfold Part003.parseDesc. rewrite Part003_getSection_eq. cbn [bind].
  unfold Part003.parseSynopsis. rewrite Part003_getSection_eq. cbn [bind].
  destruct m; reflexivity.
Qed.

Lemma GomanGo_parse_fields (m : ManPage) (d : gostring) :
  GomanGo.parse m d
  = let d' := strings.ReplaceCR d in
    let sec := section_or_sentinel (fun s => s) d' in
    GomanGo.parseOpts
      (mkManPage (first_token (sec NAME))
                 (Path m) (sec DESCRIPTION) (sec SYNOPSIS) d' (Opts m)).
Proof.
  unfold GomanGo.parse. rewrite GomanGo_parseName_eq. cbn [bind].
  unfold GomanGo.parseDesc. rewrite GomanGo_getSection_eq. cbn [bind].
  unfold GomanGo.parseSynopsis. rewrite GomanGo_getSection_eq. cbn [bind].
  destruct m; reflexivity.
Qed.

(** ** The option parser *)

(** With [idx] the offset of the first dash in the left-trimmed text and
    [rel] the offset, counted from the dash, of the first space or carriage
    return after it: the token is the text from [idx] to [rel + 1], and the
    slice faults when [idx] is beyond [rel + 1]. *)
Lemma grab_option_cases (opt : gostring) (opts : list Opt) :
  let t := strings.TrimLeft opt [SP] in
  match strings.Index t "-" with
  | None => grab_option opt opts = Ok opts
  | Some idx =>
      match strings.IndexAny (skipn idx t) [CR; SP] with
      | None => grab_option opt opts = Ok opts
      | Some rel =>
          if idx <=? rel + 1
          then grab_option opt opts
               = Ok (opts ++ [mkOpt (sub t idx (rel + 1))
                                (strings.Trim (skipn (rel + 1) t) [SP])])
          else grab_option opt opts = Panic SliceBounds
      end
  end.
Proof.
  intros t. unfold grab_option. fold t.
  destruct (strings.Index t "-") as [idx|] eqn:I; [|reflexivity].
  apply Index_bound in I.
  rewrite slice_from_ok by lia. cbn [bind].
  destruct (strings.IndexAny (skipn idx t) [CR; SP]) as [rel|] eqn:A;
    [|reflexivity].
  apply IndexAny_bound in A. rewrite length_skipn in A.
  destruct (Nat.leb_spec idx (rel + 1)).
  - rewrite slice_ok by lia. cbn [bind].
    rewrite slice_from_ok by lia. reflexivity.
  - rewrite slice_panics by lia. reflexivity.
Qed.

(** When the dash is at offset [1] - the escaped form [\-q] of the manual
    pages - the option emitted is the one the specification describes. *)
Lemma grab_option_escaped_dash (opt : gostring) (opts : list Opt) :
  strings.Index (strings.TrimLeft opt [SP]) "-" = Some 1 ->
  grab_option opt opts
  = Ok (opts ++ match spec_option opt with Some o => [o] | None => [] end).
Proof.
  intros I. pose proof (grab_option_cases opt opts) as H.
  cbv zeta in H. unfold spec_option. rewrite I in *.
  destruct (strings.IndexAny (skipn 1 (strings.TrimLeft opt [SP])) [CR; SP])
    as [rel|]; [|rewrite H, app_nil_r; reflexivity].
  replace (1 <=? rel + 1) with true in H by (symmetry; apply Nat.leb_le; lia).
  rewrite H. unfold sub.
  replace (rel + 1 - 1) with rel by lia.
  replace (rel + 1) with (1 + rel) by lia. reflexivity.
Qed.

Lemma grab_option_outcome (opt : gostring) (opts : list Opt) :
  (exists r, grab_option opt opts = Ok r)
  \/ grab_option opt opts = Panic SliceBounds.
Proof.
  pose proof (grab_option_cases opt opts) as H. cbv zeta in H.
  destruct (strings.Index (strings.TrimLeft opt [SP]) "-") as [idx|];
    [|eauto].
  destruct (strings.IndexAny (skipn idx (strings.TrimLeft opt [SP])) [CR; SP])
    as [rel|]; [|eauto].
  destruct (idx <=? rel + 1); eauto.
Qed.

(** Options are appended to the ones the record already has. *)
Lemma grab_option_append (opt : gostring) (pre acc : list Opt) :
  grab_option opt (pre ++ acc) = result_map (app pre) (grab_option opt acc).
Proof.
  unfold grab_option.
  destruct (strings.Index (strings.TrimLeft opt [SP]) "-") as [idx|];
    [|reflexivity].
  destruct (slice_from (strings.TrimLeft opt [SP]) idx); try reflexivity.
  cbn [bind].
  destruct (strings.IndexAny a [CR; SP]); [|reflexivity].
  destruct (slice (strings.TrimLeft opt [SP]) idx (n + 1)); try reflexivity.
  cbn [bind].
  destruct (slice_from (strings.TrimLeft opt [SP]) (n + 1)); try reflexivity.
  cbn [bind result_map]. rewrite app_assoc. reflexivity.
Qed.

(** The revision [part_003] tests the length first: its line collection
    never faults, and an empty line ends it the way a macro line does. *)
Lemma Part003_collect_total (lines : list gostring) :
  forall opt, exists r, Part003.collect lines opt = Ok r.
Proof.
  induction lines as [|line lines IH]; intros opt; simpl; [eauto|].
  destruct line as [|c line]; simpl; [eauto|].
  destruct (Ascii.eqb c "."); eauto.
Qed.

Lemma Part003_collect_stops_at_empty_line
  (pre post post' : list gostring) (mline : gostring) :
  forall opt,
    Part003.collect (pre ++ [] :: post) opt
    = Part003.collect (pre ++ ("."%char :: mline) :: post') opt.
Proof.
  induction pre as [|line pre IH]; intros opt; simpl; [reflexivity|].
  destruct line as [|c line]; simpl; [reflexivity|].
  destruct (Ascii.eqb c "."); [reflexivity|apply IH].
Qed.

Lemma GomanGo_collect_outcome (lines : list gostring) :
  forall opt,
    (exists r, GomanGo.collect lines opt = Ok r)
    \/ GomanGo.collect lines opt = Panic IndexRange.
Proof.
  induction lines as [|line lines IH]; intros opt; simpl; [eauto|].
  destruct line as [|c line]; simpl; [auto|].
  destruct (Ascii.eqb c "."); eauto.
Qed.

(** The loops end within their fuel: the only fault of [parse] in revision
    [part_003] is the slice of [grab_option]. *)
Lemma Part003_opts_loop_outcome (d : gostring) :
  forall fuel off mc acc,
    nextmacroOffset d off = Ok mc ->
    length d <= fuel + off ->
    (exists r, Part003.opts_loop fuel d mc acc = Ok r)
    \/ Part003.opts_loop fuel d mc acc = Panic SliceBounds.
Proof.
  induction fuel as [|fuel IH]; intros off mc acc E Hf;
    (destruct mc as [m|]; [|simpl; eauto]);
    pose proof (nextmacroOffset_bounds _ _ _ E) as (B1 & B2 & B3);
    [lia|].
  cbn [Part003.opts_loop].
  destruct (macro_type_eqb (mtype m) sh_macro); [eauto|].
  destruct (negb (macro_type_eqb (mtype m) b_macro
                  || macro_type_eqb (mtype m) ip_macro)); [eauto|].
  fold (mend m). rewrite slice_from_ok by exact B3. cbn [bind].
  destruct (Part003_collect_total (strings.Split (skipn (mend m) d) LF) [])
    as [opt ->].
  cbn [bind].
  destruct (grab_option_outcome opt acc) as [[acc' ->]| ->]; [|auto].
  cbn [bind].
  destruct (nextmacroOffset_total d (mend m) B3) as [mc' E'].
  unfold nextmacro. fold (mend m). rewrite E'. cbn [bind].
  apply (IH (mend m)); [exact E' | lia].
Qed.

(** In [src/goman.go] too the loops end within their fuel; its faults are
    the slice of [grab_option] and the index of [collect]. *)
Lemma GomanGo_opts_loop_outcome (d : gostring) :
  forall fuel off mc acc,
    nextmacroOffset d off = Ok mc ->
    length d <= fuel + off ->
    (exists r, GomanGo.opts_loop fuel d mc acc = Ok r)
    \/ (exists k, GomanGo.opts_loop fuel d mc acc = Panic k).
Proof.
  induction fuel as [|fuel IH]; intros off mc acc E Hf;
    (destruct mc as [m|]; [|simpl; eauto]);
    pose proof (nextmacroOffset_bounds _ _ _ E) as (B1 & B2 & B3);
    [lia|].
  cbn [GomanGo.opts_loop].
  destruct (macro_type_eqb (mtype m) sh_macro); [eauto|].
  destruct (negb (macro_type_eqb (mtype m) b_macro
                  || macro_type_eqb (mtype m) ip_macro)); [eauto|].
  fold (mend m). rewrite slice_from_ok by exact B3. cbn [bind].
  destruct (GomanGo_collect_outcome (strings.Split (skipn (mend m) d) LF) [])
    as [[opt ->]| ->]; [|cbn [bind]; eauto].
  cbn [bind].
  destruct (grab_option_outcome opt acc) as [[acc' ->]| ->];
    [|cbn [bind]; eauto].
  cbn [bind].
  destruct (nextmacroOffset_total d (mend m) B3) as [mc' E'].
  unfold nextmacro. fold (mend m). rewrite E'. cbn [bind].
  apply (IH (mend m)); [exact E' | lia].
Qed.

Lemma Part003_opts_loop_append (d : gostring) (pre : list Opt) :
  forall fuel mc acc,
    Part003.opts_loop fuel d mc (pre ++ acc)
    = result_map (app pre) (Part003.opts_loop fuel d mc acc).
Proof.
  induction fuel as [|fuel IH]; intros mc acc;
    (destruct mc as [m|]; [|reflexivity]); cbn [Part003.opts_loop];
    destruct (macro_type_eqb (mtype m) sh_macro); try reflexivity;
    destruct (negb (macro_type_eqb (mtype m) b_macro
                    || macro_type_eqb (mtype m) ip_macro)); try reflexivity;
    destruct (slice_from d (snd (loc m))); try reflexivity; cbn [bind];
    destruct (Part003.collect (strings.Split a LF) []); try reflexivity;
    cbn [bind]; rewrite grab_option_append;
    destruct (grab_option a0 acc); try reflexivity; cbn [bind result_map].
  destruct (nextmacro d m) as [mc'| |]; try reflexivity. cbn [bind].
  apply IH.
Qed.

(** C2, failing input.  For the entry text [-q q is an option] the
    specification's token is [-q]; both revisions emit [-q ] with the
    separator, because the end of the token is counted from the dash but used
    as an offset from the start of the text. *)
Theorem option_token_keeps_separator :
  result_map Opts (Part003.parse fresh page_plain_dash)
  = Ok [mkOpt (str "-q ") (str "q is an option")]
  /\ result_map Opts (GomanGo.parse fresh page_plain_dash)
     = Ok [mkOpt (str "-q ") (str "q is an option")]
  /\ spec_option (str " -q q is an option")
     = Some (mkOpt (str "-q") (str "q is an option")).
Proof. repeat split; vm_compute; reflexivity. Qed.

(** C9, failing input.  For the entry text [abc-d e] both revisions emit an
    option whose token is empty. *)
Theorem option_token_empty :
  result_map Opts (Part003.parse fresh page_mid_dash)
  = Ok [mkOpt [] (str "-d e")]
  /\ result_map Opts (GomanGo.parse fresh page_mid_dash)
     = Ok [mkOpt [] (str "-d e")].
Proof. split; vm_compute; reflexivity. Qed.

(** C5, failing input.  In [src/goman.go] the line after the macro is indexed
    without a length test: on a page with an empty line right after [.B ]
    the parse stops with an index-out-of-range panic. *)
Theorem empty_line_is_indexed :
  GomanGo.parse fresh page_empty_line = Panic IndexRange
  /\ GomanGo.collect (strings.Split (skipn 15 page_empty_line) LF) []
     = Panic IndexRange.
Proof. split; vm_compute; reflexivity. Qed.

Lemma Part003_parse_empty_line :
  result_map Opts (Part003.parse fresh page_empty_line) = Ok [].
Proof. vm_compute. reflexivity. Qed.

(** ** [parse] *)

Lemma Part003_parse_outcome (m : ManPage) (d : gostring) :
  (exists r, Part003.parse m d = Ok r)
  \/ Part003.parse m d = Panic SliceBounds.
Proof.
  rewrite Part003_parse_fields. cbv zeta.
  unfold Part003.parseOpts. cbn [data Opts].
  set (d' := strings.ReplaceCR d).
  assert (R : forall idx M,
            findSection d' M = inl idx ->
            forall N P D S,
            (exists r,
               (mc0 <- nextmacroOffset d' idx ;;
                opts <- Part003.opts_loop (length d') d' mc0 (Opts m) ;;
                Ok (set_Opts (mkManPage N P D S d' (Opts m)) opts)) = Ok r)
            \/ (mc0 <- nextmacroOffset d' idx ;;
                opts <- Part003.opts_loop (length d') d' mc0 (Opts m) ;;
                Ok (set_Opts (mkManPage N P D S d' (Opts m)) opts))
               = Panic SliceBounds).
  { intros idx M F N P D S. apply findSection_bound in F.
    destruct (nextmacroOffset_total d' idx F) as [mc0 E]. rewrite E.
    cbn [bind].
    destruct (Part003_opts_loop_outcome d' (length d') idx mc0 (Opts m) E)
      as [[r ->]| ->]; [lia| |]; cbn [bind]; eauto. }
  destruct (findSection d' OPTIONS_SWITCHES) as [idx|] eqn:F1;
    [eapply R; eauto|].
  destruct (findSection d' DESCRIPTION) as [idx|] eqn:F2;
    [eapply R; eauto|].
  eauto.
Qed.

Lemma GomanGo_parse_outcome (m : ManPage) (d : gostring) :
  (exists r, GomanGo.parse m d = Ok r)
  \/ (exists k, GomanGo.parse m d = Panic k).
Proof.
  rewrite GomanGo_parse_fields. cbv zeta.
  unfold GomanGo.parseOpts. cbn [data Opts].
  set (d' := strings.ReplaceCR d).
  assert (R : forall idx M,
            findSection d' M = inl idx ->
            forall N P D S,
            (exists r,
               (mc0 <- nextmacroOffset d' idx ;;
                opts <- GomanGo.opts_loop (length d') d' mc0 (Opts m) ;;
                Ok (set_Opts (mkManPage N P D S d' (Opts m)) opts)) = Ok r)
            \/ (exists k,
                  (mc0 <- nextmacroOffset d' idx ;;
                   opts <- GomanGo.opts_loop (length d') d' mc0 (Opts m) ;;
                   Ok (set_Opts (mkManPage N P D S d' (Opts m)) opts))
                  = Panic k)).
  { intros idx M F N P D S. apply findSection_bound in F.
    destruct (nextmacroOffset_total d' idx F) as [mc0 E]. rewrite E.
    cbn [bind].
    destruct (GomanGo_opts_loop_outcome d' (length d') idx mc0 (Opts m) E)
      as [[r ->]|[k ->]]; [lia| |]; cbn [bind]; eauto. }
  destruct (findSection d' OPTIONS_SWITCHES) as [idx|] eqn:F1;
    [eapply R; eauto|].
  destruct (findSection d' DESCRIPTION) as [idx|] eqn:F2;
    [eapply R; eauto|].
  eauto.
Qed.

(** C1, failing input.  On a page whose option entry has its first dash
    further right than the token after it is long, [opt[idx:spc]] is
    evaluated with [idx > spc] and [parse] stops with a run-time panic, in
    both revisions. *)
Theorem parse_panics_on_late_dash :
  Part003.parse fresh page_late_dash = Panic SliceBounds
  /\ GomanGo.parse fresh page_late_dash = Panic SliceBounds.
Proof. split; vm_compute; reflexivity. Qed.

(** The test of the library: the escaped dash [\-q] puts the dash at offset
    [1], where the two ways of counting agree. *)
Lemma parse_sample :
  Part003.parse fresh page_sample
  = Ok (mkManPage (str "foobar") (str "test.1.gz")
          (str "This is just a sample...") (str "N/A")
          page_sample
          [mkOpt (str "-q") (str "q is an option");
           mkOpt (str "-u") (str "u is an option")]).
Proof. vm_compute. reflexivity. Qed.

(** The options collected before are carried through the loop as they
    are, and through [parseOpts] with the other fields of the record. *)
Lemma GomanGo_opts_loop_append (d : gostring) (pre : list Opt) :
  forall fuel mc acc,
    GomanGo.opts_loop fuel d mc (pre ++ acc)
    = result_map (app pre) (GomanGo.opts_loop fuel d mc acc).
Proof.
  induction fuel as [|fuel IH]; intros mc acc;
    (destruct mc as [m|]; [|reflexivity]); cbn [GomanGo.opts_loop];
    destruct (macro_type_eqb (mtype m) sh_macro); try reflexivity;
    destruct (negb (macro_type_eqb (mtype m) b_macro
                    || macro_type_eqb (mtype m) ip_macro)); try reflexivity;
    destruct (slice_from d (snd (loc m))); try reflexivity; cbn [bind];
    destruct (GomanGo.collect (strings.Split a LF) []); try reflexivity;
    cbn [bind]; rewrite grab_option_append;
    destruct (grab_option a0 acc); try reflexivity; cbn [bind result_map].
  destruct (nextmacro d m) as [mc'| |]; try reflexivity. cbn [bind].
  apply IH.
Qed.

Lemma Part003_parseOpts_keeps (m r : ManPage) :
  Part003.parseOpts m = Ok r ->
  Name r = Name m /\ Path r = Path m /\ Desc r = Desc m
  /\ Synopsis r = Synopsis m /\ data r = data m
  /\ exists new, Opts r = Opts m ++ new.
Proof.
  unfold Part003.parseOpts.
  assert (R : forall idx,
            (mc0 <- nextmacroOffset (data m) idx ;;
             opts <- Part003.opts_loop (length (data m)) (data m) mc0 (Opts m) ;;
             Ok (set_Opts m opts)) = Ok r ->
            Name r = Name m /\ Path r = Path m /\ Desc r = Desc m
            /\ Synopsis r = Synopsis m /\ data r = data m
            /\ exists new, Opts r = Opts m ++ new).
  { intros idx.
    destruct (nextmacroOffset (data m) idx) as [mc0| |]; try discriminate.
    cbn [bind]. rewrite <- (app_nil_r (Opts m)) at 1.
    rewrite Part003_opts_loop_append.
    destruct (Part003.opts_loop (length (data m)) (data m) mc0 [])
      as [new| |]; try discriminate.
    cbn [result_map bind]. intros E. inversion E; subst r.
    cbn. repeat split; eauto. }
  destruct (findSection (data m) OPTIONS_SWITCHES) as [idx|]; [apply R|].
  destruct (findSection (data m) DESCRIPTION) as [idx|]; [apply R|].
  intros E. inversion E; subst r. repeat split. exists [].
  symmetry. apply app_nil_r.
Qed.

Lemma GomanGo_parseOpts_keeps (m r : ManPage) :
  GomanGo.parseOpts m = Ok r ->
  Name r = Name m /\ Path r = Path m /\ Desc r = Desc m
  /\ Synopsis r = Synopsis m /\ data r = data m
  /\ exists new, Opts r = Opts m ++ new.
Proof.
  unfold GomanGo.parseOpts.
  assert (R : forall idx,
            (mc0 <- nextmacroOffset (data m) idx ;;
             opts <- GomanGo.opts_loop (length (data m)) (data m) mc0 (Opts m) ;;
             Ok (set_Opts m opts)) = Ok r ->
            Name r = Name m /\ Path r = Path m /\ Desc r = Desc m
            /\ Synopsis r = Synopsis m /\ data r = data m
            /\ exists new, Opts r = Opts m ++ new).
  { intros idx.
    destruct (nextmacroOffset (data m) idx) as [mc0| |]; try discriminate.
    cbn [bind]. rewrite <- (app_nil_r (Opts m)) at 1.
    rewrite GomanGo_opts_loop_append.
    destruct (GomanGo.opts_loop (length (data m)) (data m) mc0 [])
      as [new| |]; try discriminate.
    cbn [result_map bind]. intros E. inversion E; subst r.
    cbn. repeat split; eauto. }
  destruct (findSection (data m) OPTIONS_SWITCHES) as [idx|]; [apply R|].
  destruct (findSection (data m) DESCRIPTION) as [idx|]; [apply R|].
  intros E. inversion E; subst r. repeat split. exists [].
  symmetry. apply app_nil_r.
Qed.

Lemma ReplaceCR_no_CR (d : gostring) : ~ In CR (strings.ReplaceCR d).
Proof.
  unfold strings.ReplaceCR. intros H. apply filter_In in H as [_ H].
  rewrite Ascii.eqb_refl in H. discriminate H.
Qed.

Lemma parse_keeps_record_aux (path d : gostring) (r : ManPage) :
  Part003.parse (new_ManPage path) d = Ok r
  \/ GomanGo.parse (new_ManPage path) d = Ok r ->
  Path r = path /\ data r = strings.ReplaceCR d.
Proof.
  intros [H|H].
  - rewrite Part003_parse_fields in H. cbv zeta in H.
    apply Part003_parseOpts_keeps in H as (_ & P & _ & _ & Da & _).
    auto.
  - rewrite GomanGo_parse_fields in H. cbv zeta in H.
    apply GomanGo_parseOpts_keeps in H as (_ & P & _ & _ & Da & _).
    auto.
Qed.

(** [parse] appends: the record it makes is the one it makes from the same
    record without options, with the options the record had put before
    those of the document. *)
Lemma Part003_parse_appends (m : ManPage) (d : gostring) :
  Part003.parse m d
  = result_map (prepend_Opts (Opts m)) (Part003.parse (set_Opts m []) d).
Proof.
  rewrite !Part003_parse_fields. cbv zeta.
  unfold Part003.parseOpts. cbn [data Opts set_Opts Path].
  set (d' := strings.ReplaceCR d).
  assert (R : forall idx N P D S,
            (mc0 <- nextmacroOffset d' idx ;;
             opts <- Part003.opts_loop (length d') d' mc0 (Opts m) ;;
             Ok (set_Opts (mkManPage N P D S d' (Opts m)) opts))
            = result_map (prepend_Opts (Opts m))
                (mc0 <- nextmacroOffset d' idx ;;
                 opts <- Part003.opts_loop (length d') d' mc0 [] ;;
                 Ok (set_Opts (mkManPage N P D S d' []) opts))).
  { intros idx N P D S.
    destruct (nextmacroOffset d' idx) as [mc0| |]; try reflexivity.
    cbn [bind].
    rewrite <- (app_nil_r (Opts m)) at 1.
    rewrite Part003_opts_loop_append.
    destruct (Part003.opts_loop (length d') d' mc0 []); reflexivity. }
  destruct (findSection d' OPTIONS_SWITCHES) as [idx|]; [apply R|].
  destruct (findSection d' DESCRIPTION) as [idx|]; [apply R|].
  cbn [result_map]. unfold prepend_Opts, set_Opts. cbn.
  rewrite app_nil_r. reflexivity.
Qed.

Lemma GomanGo_parse_appends (m : ManPage) (d : gostring) :
  GomanGo.parse m d
  = result_map (prepend_Opts (Opts m)) (GomanGo.parse (set_Opts m []) d).
Proof.
  rewrite !GomanGo_parse_fields. cbv zeta.
  unfold GomanGo.parseOpts. cbn [data Opts set_Opts Path].
  set (d' := strings.ReplaceCR d).
  assert (R : forall idx N P D S,
            (mc0 <- nextmacroOffset d' idx ;;
             opts <- GomanGo.opts_loop (length d') d' mc0 (Opts m) ;;
             Ok (set_Opts (mkManPage N P D S d' (Opts m)) opts))
            = result_map (prepend_Opts (Opts m))
                (mc0 <- nextmacroOffset d' idx ;;
                 opts <- GomanGo.opts_loop (length d') d' mc0 [] ;;
                 Ok (set_Opts (mkManPage N P D S d' []) opts))).
  { intros idx N P D S.
    destruct (nextmacroOffset d' idx) as [mc0| |]; try reflexivity.
    cbn [bind].
    rewrite <- (app_nil_r (Opts m)) at 1.
    rewrite GomanGo_opts_loop_append.
    destruct (GomanGo.opts_loop (length d') d' mc0 []); reflexivity. }
  destruct (findSection d' OPTIONS_SWITCHES) as [idx|]; [apply R|].
  destruct (findSection d' DESCRIPTION) as [idx|]; [apply R|].
  cbn [result_map]. unfold prepend_Opts, set_Opts. cbn.
  rewrite app_nil_r. reflexivity.
Qed.

(** Of the record it is given, [parse] reads the path and the options and
    nothing else; of the document, the normalized text. *)
Lemma Part003_parse_from_new (m : ManPage) (d1 d2 : gostring) :
  strings.ReplaceCR d1 = strings.ReplaceCR d2 ->
  Part003.parse m d1
  = result_map (prepend_Opts (Opts m))
      (Part003.parse (new_ManPage (Path m)) d2).
Proof.
  intros Hdoc. rewrite Part003_parse_appends. f_equal.
  rewrite !Part003_parse_fields. cbv zeta. rewrite Hdoc. reflexivity.
Qed.

Lemma GomanGo_parse_from_new (m : ManPage) (d1 d2 : gostring) :
  strings.ReplaceCR d1 = strings.ReplaceCR d2 ->
  GomanGo.parse m d1
  = result_map (prepend_Opts (Opts m))
      (GomanGo.parse (new_ManPage (Path m)) d2).
Proof.
  intros Hdoc. rewrite GomanGo_parse_appends. f_equal.
  rewrite !GomanGo_parse_fields. cbv zeta. rewrite Hdoc. reflexivity.
Qed.

Lemma set_Opts_same (r : ManPage) (new : list Opt) :
  set_Opts r (Opts r ++ new) = r <-> new = [].
Proof.
  split.
  - intros E. apply (f_equal Opts) in E. cbn [Opts set_Opts] in E.
    rewrite <- (app_nil_r (Opts r)) in E at 2.
    apply app_inv_head in E. exact E.
  - intros ->. rewrite app_nil_r. destruct r; reflexivity.
Qed.

(** What a second [parse] into the record of a first one does: the options
    of the document are appended once more. *)
Lemma Part003_parse_again (m : ManPage) (d1 d2 : gostring) (r1 : ManPage) :
  strings.ReplaceCR d1 = strings.ReplaceCR d2 ->
  Part003.parse m d1 = Ok r1 ->
  exists new,
    Opts r1 = Opts m ++ new
    /\ Part003.parse r1 d2 = Ok (set_Opts r1 (Opts r1 ++ new))
    /\ (Part003.parse r1 d2 = Ok r1 <-> new = []).
Proof.
  intros Hdoc E1.
  rewrite (Part003_parse_from_new m d1 d2 Hdoc) in E1.
  destruct (Part003.parse (new_ManPage (Path m)) d2) as [r0| |] eqn:E0;
    try discriminate E1.
  cbn [result_map] in E1. inversion E1; subst r1. clear E1.
  destruct (parse_keeps_record_aux _ _ _ (or_introl E0)) as [P _].
  assert (E2 : Part003.parse (prepend_Opts (Opts m) r0) d2
               = Ok (set_Opts (prepend_Opts (Opts m) r0)
                       (Opts (prepend_Opts (Opts m) r0) ++ Opts r0))).
  { rewrite (Part003_parse_from_new _ d2 d2 eq_refl).
    change (Path (prepend_Opts (Opts m) r0)) with (Path r0).
    rewrite P, E0. reflexivity. }
  exists (Opts r0). split; [reflexivity|]. split; [exact E2|].
  rewrite E2. split.
  - intros E.
    apply (set_Opts_same (prepend_Opts (Opts m) r0)). congruence.
  - intros N. f_equal. apply set_Opts_same. exact N.
Qed.

Lemma GomanGo_parse_again (m : ManPage) (d1 d2 : gostring) (r1 : ManPage) :
  strings.ReplaceCR d1 = strings.ReplaceCR d2 ->
  GomanGo.parse m d1 = Ok r1 ->
  exists new,
    Opts r1 = Opts m ++ new
    /\ GomanGo.parse r1 d2 = Ok (set_Opts r1 (Opts r1 ++ new))
    /\ (GomanGo.parse r1 d2 = Ok r1 <-> new = []).
Proof.
  intros Hdoc E1.
  rewrite (GomanGo_parse_from_new m d1 d2 Hdoc) in E1.
  destruct (GomanGo.parse (new_ManPage (Path m)) d2) as [r0| |] eqn:E0;
    try discriminate E1.
  cbn [result_map] in E1. inversion E1; subst r1. clear E1.
  destruct (parse_keeps_record_aux _ _ _ (or_intror E0)) as [P _].
  assert (E2 : GomanGo.parse (prepend_Opts (Opts m) r0) d2
               = Ok (set_Opts (prepend_Opts (Opts m) r0)
                       (Opts (prepend_Opts (Opts m) r0) ++ Opts r0))).
  { rewrite (GomanGo_parse_from_new _ d2 d2 eq_refl).
    change (Path (prepend_Opts (Opts m) r0)) with (Path r0).
    rewrite P, E0. reflexivity. }
  exists (Opts r0). split; [reflexivity|]. split; [exact E2|].
  rewrite E2. split.
  - intros E.
    apply (set_Opts_same (prepend_Opts (Opts m) r0)). congruence.
  - intros N. f_equal. apply set_Opts_same. exact N.
Qed.

(** C10, the claim as stated fails: [parse] appends to the options of the
    record it is called on.  The page of the test is parsed into a new
    record, which gets its two options; parsed again into that record, the
    same document leaves name, description and synopsis as they are and
    gives the record four options - the two of the page, twice.  Both
    revisions. *)
Lemma second_parse_accumulates :
  let q := mkOpt (str "-q") (str "q is an option") in
  let u := mkOpt (str "-u") (str "u is an option") in
  let page opts :=
    mkManPage (str "foobar") (str "test.1.gz")
      (str "This is just a sample...") (str "N/A") page_sample opts in
  Part003.parse fresh page_sample = Ok (page [q; u])
  /\ Part003.parse (page [q; u]) page_sample = Ok (page [q; u; q; u])
  /\ GomanGo.parse fresh page_sample = Ok (page [q; u])
  /\ GomanGo.parse (page [q; u]) page_sample = Ok (page [q; u; q; u])
  /\ page [q; u; q; u] <> page [q; u].
Proof.
  cbv zeta. repeat split; try (vm_compute; reflexivity).
  discriminate.
Qed.

(** C10 (as amended).  The outcome of [parse] is a function of the path and
    the options of the record it is called on and of the normalized
    document, in both revisions: two parses of documents with the same
    normalization into records with the same path and the same options - in
    particular into two records as [NewManPage] makes one per call - give
    bit-identical records, with the same name, description, synopsis and
    the same options in the same order, or the same fault.  [parse] keeps
    the options the record holds and puts those of the document after them:
    so a second parse into the record the first one made leaves name,
    description and synopsis as they are and appends the options of the
    document once more, and gives the record of the first parse again
    exactly when the document has no options. *)
Theorem parse_twice
  (m : ManPage) (d1 d2 : gostring)
  (Hdoc : strings.ReplaceCR d1 = strings.ReplaceCR d2) :
  (forall m',
      Path m' = Path m -> Opts m' = Opts m ->
      Part003.parse m' d2 = Part003.parse m d1
      /\ GomanGo.parse m' d2 = GomanGo.parse m d1)
  /\ Part003.parse m d1
     = result_map (prepend_Opts (Opts m))
         (Part003.parse (new_ManPage (Path m)) d2)
  /\ GomanGo.parse m d1
     = result_map (prepend_Opts (Opts m))
         (GomanGo.parse (new_ManPage (Path m)) d2)
  /\ (forall r1,
        Part003.parse m d1 = Ok r1 ->
        exists new,
          Opts r1 = Opts m ++ new
          /\ Part003.parse r1 d2 = Ok (set_Opts r1 (Opts r1 ++ new))
          /\ (Part003.parse r1 d2 = Ok r1 <-> new = []))
  /\ (forall r1,
        GomanGo.parse m d1 = Ok r1 ->
        exists new,
          Opts r1 = Opts m ++ new
          /\ GomanGo.parse r1 d2 = Ok (set_Opts r1 (Opts r1 ++ new))
          /\ (GomanGo.parse r1 d2 = Ok r1 <-> new = [])).
Proof.
  split; [|split; [|split; [|split]]].
  - intros m' P O.
    rewrite (Part003_parse_from_new m' d2 d2 eq_refl),
            (GomanGo_parse_from_new m' d2 d2 eq_refl),
            (Part003_parse_from_new m d1 d2 Hdoc),
            (GomanGo_parse_from_new m d1 d2 Hdoc), P, O.
    split; reflexivity.
  - apply Part003_parse_from_new. exact Hdoc.
  - apply GomanGo_parse_from_new. exact Hdoc.
  - intros r1. apply Part003_parse_again. exact Hdoc.
  - intros r1. apply GomanGo_parse_again. exact Hdoc.
Qed.

Lemma parse_twice_witness :
  let q := mkOpt (str "-q") (str "q is an option") in
  let u := mkOpt (str "-u") (str "u is an option") in
  strings.ReplaceCR page_sample_crlf = strings.ReplaceCR page_sample
  /\ page_sample_crlf <> page_sample
  /\ result_map Opts (Part003.parse fresh page_sample) = Ok [q; u]
  /\ Part003.parse fresh page_sample_crlf
     = result_map (prepend_Opts (Opts fresh))
         (Part003.parse (new_ManPage (Path fresh)) page_sample)
  /\ GomanGo.parse fresh page_sample_crlf
     = result_map (prepend_Opts (Opts fresh))
         (GomanGo.parse (new_ManPage (Path fresh)) page_sample)
  /\ (Part003.parse (new_ManPage (str "test.1.gz")) page_sample
      = Part003.parse fresh page_sample_crlf
      /\ GomanGo.parse (new_ManPage (str "test.1.gz")) page_sample
         = GomanGo.parse fresh page_sample_crlf).
Proof.
  cbv zeta.
  split; [vm_compute; reflexivity|].
  split; [vm_compute; discriminate|].
  split; [vm_compute; reflexivity|].
  assert (Hdoc : strings.ReplaceCR page_sample_crlf
                 = strings.ReplaceCR page_sample)
    by (vm_compute; reflexivity).
  destruct (parse_twice fresh page_sample_crlf page_sample Hdoc)
    as (Same & P & G & _).
  split; [exact P|]. split; [exact G|].
  apply Same; reflexivity.
Defined.


(** ** More about the macro scanner *)

(** The texts [`\.[A-Z]+ `] matches: a dot, capital letters (at least one),
    one space. *)
Lemma macro_re_shape (w : gostring) :
  matches macro_re w <->
  exists u,
    w = "."%char :: u ++ [SP] /\ u <> [] /\
    Forall (fun c => is_upper c = true) u.
Proof.
  unfold macro_re, Plus, is_upper. split.
  - intros H.
    apply matches_Cat_inv in H as (a & b & -> & Ha & Hb).
    apply matches_Chr_inv in Ha. subst a.
    apply matches_Cat_inv in Hb as (u & sp & -> & Hu & Hsp).
    apply matches_Chr_inv in Hsp. subst sp.
    apply matches_Cat_inv in Hu as (u1 & u2 & -> & Hu1 & Hu2).
    apply matches_Range_inv in Hu1 as (c & -> & Hc).
    apply matches_star_range in Hu2.
    exists ([c] ++ u2). repeat split; [discriminate|].
    constructor; assumption.
  - intros (u & -> & Hne & Hu).
    change ("."%char :: u ++ [SP]) with (["."%char] ++ (u ++ [SP])).
    constructor; [constructor|].
    constructor; [|constructor].
    destruct u as [|c u]; [congruence|].
    inversion Hu; subst.
    change (c :: u) with ([c] ++ u).
    constructor; [constructor; assumption | apply matches_star_range; assumption].
Qed.

(** Two macros that start at the same place are the same macro. *)
Lemma macro_prefix_unique (s : gostring) (n1 n2 : nat) :
  n1 <= length s -> n2 <= length s ->
  matches macro_re (firstn n1 s) -> matches macro_re (firstn n2 s) ->
  n1 = n2.
Proof.
  assert (W : forall a b, a < b -> b <= length s ->
            matches macro_re (firstn a s) -> matches macro_re (firstn b s) ->
            False).
  { intros a b Hab Hb Ma Mb.
    apply macro_re_shape in Ma as (u & Ea & _ & Fu).
    apply macro_re_shape in Mb as (v & Eb & _ & Fv).
    assert (La : a = S (length u + 1)).
    { apply (f_equal (@length ascii)) in Ea.
      rewrite length_firstn in Ea. simpl in Ea.
      rewrite length_app in Ea. simpl in Ea. lia. }
    assert (Lb : b = S (length v + 1)).
    { apply (f_equal (@length ascii)) in Eb.
      rewrite length_firstn in Eb. simpl in Eb.
      rewrite length_app in Eb. simpl in Eb. lia. }
    assert (Na : nth_error s (S (length u)) = Some SP).
    { rewrite <- (firstn_skipn a s), nth_error_app1
        by (rewrite length_firstn; lia).
      rewrite Ea. simpl. rewrite nth_error_app2 by lia.
      rewrite Nat.sub_diag. reflexivity. }
    assert (Nb : exists c, nth_error s (S (length u)) = Some c
                           /\ is_upper c = true).
    { rewrite <- (firstn_skipn b s), nth_error_app1
        by (rewrite length_firstn; lia).
      rewrite Eb. simpl. rewrite nth_error_app1 by lia.
      destruct (nth_error v (length u)) as [c|] eqn:N.
      - exists c. split; [reflexivity|].
        rewrite Forall_forall in Fv. apply Fv.
        eapply nth_error_In. exact N.
      - apply nth_error_None in N. lia. }
    destruct Nb as (c & Nc & Uc). rewrite Na in Nc.
    inversion Nc; subst. discriminate Uc. }
  intros H1 H2 M1 M2.
  destruct (Nat.lt_trichotomy n1 n2) as [L|[E|L]]; [|exact E|];
    exfalso; eauto.
Qed.

(** The offsets of [find_from] read in the sliced document. *)
Lemma scan_bol_lbol (data : gostring) (off k : nat) :
  off + k <= length data ->
  (lbol true (skipn off data) k <-> scan_bol data off (off + k)).
Proof.
  intros Hk. unfold lbol, scan_bol. split.
  - intros [[-> _]|[Hp H]]; [left; lia|].
    right. split; [lia|].
    rewrite nth_error_skipn in H.
    replace (off + k - 1) with (off + (k - 1)) by lia. exact H.
  - intros [E|[Hp H]]; [left; split; [lia|reflexivity]|].
    right. split; [lia|].
    rewrite nth_error_skipn.
    replace (off + (k - 1)) with (off + k - 1) by lia. exact H.
Qed.

Lemma nextmacroOffset_unfold (data : gostring) (off : nat) :
  off <= length data ->
  nextmacroOffset data off
  = match FindStringIndex macro_re (skipn off data) with
    | Some (i0, i1) =>
        Ok (Some (mkMacro (off + i0, off + i1)
                    (macro_types (sub data (off + i0 + 1) (off + i1 - 1)))))
    | None => Ok None
    end.
Proof.
  intros H. unfold nextmacroOffset.
  rewrite slice_from_ok by exact H. cbn [bind].
  destruct (FindStringIndex macro_re (skipn off data)) as [[i0 i1]|] eqn:F;
    [|reflexivity].
  apply find_macro_bounds in F as [F1 F2]. rewrite length_skipn in F2.
  cbn [fst snd]. rewrite slice_ok by lia. reflexivity.
Qed.

Lemma nextmacroOffset_panics (data : gostring) (off : nat) :
  length data < off -> nextmacroOffset data off = Panic SliceBounds.
Proof.
  intros H. unfold nextmacroOffset, slice_from, slice.
  destruct (Nat.leb_spec off (length data)); [lia|].
  rewrite andb_false_l || rewrite andb_false_r; reflexivity.
Qed.

Lemma sub_middle (data x y z : gostring) (a b : nat) :
  a <= b -> b <= length data ->
  sub data a b = x ++ y ++ z ->
  sub data (a + length x) (b - length z) = y.
Proof.
  intros Hab Hb E. unfold sub in *.
  assert (L : b - a = length x + length y + length z).
  { apply (f_equal (@length ascii)) in E.
    rewrite length_firstn, length_skipn, !length_app in E. lia. }
  replace (a + length x) with (length x + a) by lia.
  rewrite <- skipn_skipn.
  rewrite <- (firstn_skipn (b - a) (skipn a data)), E.
  rewrite <- !app_assoc.
  rewrite skipn_app, skipn_all, Nat.sub_diag. cbn [skipn app].
  replace (b - length z - (length x + a)) with (length y + 0) by lia.
  rewrite firstn_app_2. cbn [firstn]. apply app_nil_r.
Qed.

Lemma nextmacroOffset_some (data : gostring) (off : nat) (m : macro) :
  nextmacroOffset data off = Ok (Some m) ->
  exists name,
    sub data (mstart m) (mend m) = "."%char :: name ++ [SP]
    /\ name <> [] /\ Forall (fun c => is_upper c = true) name
    /\ mtype m = macro_types name
    /\ scan_bol data off (mstart m)
    /\ (forall i e, off <= i -> i < mstart m -> scan_bol data off i ->
                    i <= e -> e <= length data ->
                    ~ matches macro_re (sub data i e)).
Proof.
  intros Hm.
  assert (Hoff : off <= length data).
  { destruct (Nat.le_gt_cases off (length data)) as [H|H]; [exact H|].
    rewrite nextmacroOffset_panics in Hm by exact H. discriminate. }
  rewrite nextmacroOffset_unfold in Hm by exact Hoff.
  destruct (FindStringIndex macro_re (skipn off data)) as [[i0 i1]|] eqn:F;
    [|discriminate].
  inversion Hm; subst m; clear Hm. unfold mstart, mend. cbn [loc fst snd mtype].
  unfold FindStringIndex in F.
  apply find_from_some in F as (k & n & -> & -> & Hk & Hb & L & Min).
  cbn [Nat.add]. rewrite length_skipn in Hk.
  rewrite skipn_skipn in L.
  pose proof (longest_sound _ _ _ L) as [Hn M].
  rewrite length_skipn in Hn.
  pose proof M as M'. apply macro_re_shape in M' as (u & E & Hne & Fu).
  assert (Ln : n = S (length u + 1)).
  { apply (f_equal (@length ascii)) in E.
    rewrite length_firstn, length_skipn in E. simpl in E.
    rewrite length_app in E. simpl in E. lia. }
  exists u.
  assert (S1 : sub data (off + k) (off + (k + n)) = "."%char :: u ++ [SP]).
  { unfold sub. replace (off + (k + n) - (off + k)) with n by lia.
    rewrite Nat.add_comm. exact E. }
  split; [exact S1|]. split; [exact Hne|]. split; [exact Fu|].
  split.
  - f_equal.
    pose proof (sub_middle data ["."%char] u [SP] (off + k) (off + (k + n))
                  ltac:(lia) ltac:(lia) S1) as Mid.
    cbn [length] in Mid.
    replace (off + (k + n) - 1) with (off + (k + n) - 1) by lia.
    exact Mid.
  - split.
    + apply scan_bol_lbol; [lia|exact Hb].
    + intros i e H1 H2 Hbi H3 H4. unfold sub.
      replace i with (off + (i - off)) in * by lia.
      apply scan_bol_lbol in Hbi; [|lia].
      specialize (Min (i - off) ltac:(lia) Hbi).
      rewrite skipn_skipn in Min.
      replace (i - off + off) with (off + (i - off)) in Min by lia.
      apply (longest_none _ _ Min). rewrite length_skipn. lia.
Qed.

(** X1.  A macro the scanner returns is the text [.NAME ] with [NAME] one or
    more capital letters, at the start of the scan or right after a line
    feed; its kind is what the table [macro_types] has for [NAME]; and no
    macro text begins at an earlier line start of the scan. *)
Theorem scanned_macro_shape
  (data : gostring) (off : nat) (m : macro)
  (Hm : nextmacroOffset data off = Ok (Some m)) :
  exists name,
    sub data (mstart m) (mend m) = "."%char :: name ++ [SP]
    /\ name <> [] /\ Forall (fun c => is_upper c = true) name
    /\ mtype m = macro_types name
    /\ scan_bol data off (mstart m)
    /\ (forall i e, off <= i -> i < mstart m -> scan_bol data off i ->
                    i <= e -> e <= length data ->
                    ~ matches macro_re (sub data i e)).
Proof. exact (nextmacroOffset_some data off m Hm). Qed.

Lemma scanned_macro_shape_witness :
  nextmacroOffset page_sample 5 = Ok (Some (mkMacro (27, 31) sh_macro))
  /\ exists name,
       sub page_sample 27 31 = "."%char :: name ++ [SP]
       /\ name <> [] /\ Forall (fun c => is_upper c = true) name
       /\ sh_macro = macro_types name
       /\ scan_bol page_sample 5 27
       /\ (forall i e, 5 <= i -> i < 27 -> scan_bol page_sample 5 i ->
                       i <= e -> e <= length page_sample ->
                       ~ matches macro_re (sub page_sample i e)).
Proof.
  assert (H : nextmacroOffset page_sample 5
              = Ok (Some (mkMacro (27, 31) sh_macro)))
    by (vm_compute; reflexivity).
  split; [exact H|].
  exact (scanned_macro_shape page_sample 5 (mkMacro (27, 31) sh_macro) H).
Defined.

Lemma find_from_here (r : regex) (s : gostring) (pos n : nat) :
  longest r s = Some n -> find_from r s pos true = Some (pos, pos + n).
Proof.
  intros L. destruct s; cbn [find_from]; rewrite L; reflexivity.
Qed.

Lemma nextmacroOffset_cases (data : gostring) (off : nat) :
  (nextmacroOffset data off = Panic SliceBounds <-> length data < off)
  /\ (nextmacroOffset data off = Ok None <->
      off <= length data /\
      forall i e, off <= i -> scan_bol data off i -> i <= e ->
                  e <= length data -> ~ matches macro_re (sub data i e))
  /\ nextmacroOffset data (length data) = Ok None.
Proof.
  assert (Last : nextmacroOffset data (length data) = Ok None).
  { rewrite nextmacroOffset_unfold by lia. rewrite skipn_all. reflexivity. }
  destruct (Nat.le_gt_cases off (length data)) as [Hoff|Hoff].
  - rewrite nextmacroOffset_unfold by exact Hoff.
    destruct (FindStringIndex macro_re (skipn off data)) as [[i0 i1]|] eqn:F.
    + split; [split; [discriminate|lia]|]. split; [|exact Last].
      split; [discriminate|]. intros [_ H]. exfalso.
      unfold FindStringIndex in F.
      apply find_from_some in F as (k & n & _ & _ & Hk & Hb & L & _).
      rewrite length_skipn in Hk. rewrite skipn_skipn in L.
      apply longest_sound in L as [Hn M]. rewrite length_skipn in Hn.
      apply (H (off + k) (off + k + n)); try lia.
      * apply scan_bol_lbol; [lia|exact Hb].
      * unfold sub. replace (off + k + n - (off + k)) with n by lia.
        rewrite Nat.add_comm. exact M.
    + split; [split; [discriminate|lia]|]. split; [|exact Last].
      split; [|reflexivity]. intros _. split; [exact Hoff|].
      intros i e H1 Hb H2 H3. unfold sub.
      replace i with (off + (i - off)) in * by lia.
      apply scan_bol_lbol in Hb; [|lia].
      unfold FindStringIndex in F.
      pose proof (find_from_none _ _ _ _ F (i - off)
                    ltac:(rewrite length_skipn; lia) Hb) as N.
      rewrite skipn_skipn in N.
      replace (i - off + off) with (off + (i - off)) in N by lia.
      apply (longest_none _ _ N). rewrite length_skipn. lia.
  - rewrite nextmacroOffset_panics by exact Hoff.
    split; [split; [intros _; exact Hoff|reflexivity]|].
    split; [|exact Last].
    split; [discriminate|intros [H _]; lia].
Qed.

(** X2.  The scanner faults exactly when the offset is beyond the end of the
    document (the slice [data[offset:]]), and it returns [nil] exactly when
    no line of the rest of the document - the offset counting as a line
    start - begins with a macro text.  So on the empty document, and at the
    end of any document, it returns [nil]. *)
Theorem nextmacroOffset_edges (data : gostring) (off : nat) :
  (nextmacroOffset data off = Panic SliceBounds <-> length data < off)
  /\ (nextmacroOffset data off = Ok None <->
      off <= length data /\
      forall i e, off <= i -> scan_bol data off i -> i <= e ->
                  e <= length data -> ~ matches macro_re (sub data i e))
  /\ nextmacroOffset data (length data) = Ok None.
Proof. exact (nextmacroOffset_cases data off). Qed.

(** X3.  The scanner takes its offset for a line start, wherever it falls:
    when the text at the offset is a macro text, that macro is returned,
    also in the middle of a line.  (So the macro after [.B ] in the line
    [.B .SH x] is the section heading [.SH ].) *)
Theorem scanner_reanchors
  (data : gostring) (off e : nat)
  (Hoff : off <= e) (He : e <= length data)
  (Hmatch : matches macro_re (sub data off e)) :
  nextmacroOffset data off
  = Ok (Some (mkMacro (off, e) (macro_types (sub data (off + 1) (e - 1))))).
Proof.
  rewrite nextmacroOffset_unfold by lia.
  unfold sub in Hmatch.
  destruct (longest_complete macro_re (skipn off data) (e - off)
              ltac:(rewrite length_skipn; lia) Hmatch) as (n & L & Hn).
  pose proof (longest_sound _ _ _ L) as [Hn' M].
  assert (n = e - off).
  { apply (macro_prefix_unique (skipn off data)); try assumption.
    rewrite length_skipn. lia. }
  subst n. unfold FindStringIndex.
  rewrite (find_from_here _ _ 0 _ L). cbn [Nat.add].
  replace (off + (e - off)) with e by lia.
  rewrite Nat.add_0_r. reflexivity.
Qed.

Lemma scanner_reanchors_witness :
  nextmacroOffset (str ".B .SH x") 3 = Ok (Some (mkMacro (3, 7) sh_macro)).
Proof.
  assert (M : matches macro_re (sub (str ".B .SH x") 3 7)).
  { apply macro_re_shape. exists (str "SH").
    split; [vm_compute; reflexivity|]. split; [discriminate|].
    repeat constructor. }
  exact (scanner_reanchors (str ".B .SH x") 3 7
           ltac:(vm_compute; lia) ltac:(vm_compute; lia) M).
Defined.

(** X4.  The table of macro kinds: each of the five names has its own kind,
    and every other name reads as the zero value, which is none of the five
    - an unknown macro is never taken for [.B] or [.SH]. *)
Theorem macro_types_spec (k : gostring) :
  (macro_types k = b_macro <-> k = str "B")
  /\ (macro_types k = ip_macro <-> k = str "IP")
  /\ (macro_types k = pp_macro <-> k = str "PP")
  /\ (macro_types k = sh_macro <-> k = str "SH")
  /\ (macro_types k = tp_macro <-> k = str "TP")
  /\ (macro_types k = no_macro <->
      ~ In k [str "B"; str "IP"; str "PP"; str "SH"; str "TP"]).
Proof.
  unfold macro_types, macro_types_table, map_lookup.
  repeat match goal with
         | |- context [list_eq_dec ascii_dec ?a k] =>
             destruct (list_eq_dec ascii_dec a k) as [<-|?]
         end;
    repeat split; intros H;
    try reflexivity; try discriminate H;
    try (simpl in H; tauto);
    try (intros [F|[F|[F|[F|[F|[]]]]]]; congruence);
    try congruence.
Qed.

(** ** More about the section extractor *)

Lemma macro_text_no_LF (w : gostring) : matches macro_re w -> ~ In LF w.
Proof.
  intros M. apply macro_re_shape in M as (u & -> & _ & Fu).
  intros [F|F]; [discriminate F|].
  apply in_app_or in F as [F|[F|[]]]; [|discriminate F].
  rewrite Forall_forall in Fu. specialize (Fu _ F). discriminate Fu.
Qed.

Lemma heading_is_macro : matches macro_re (str ".SH ").
Proof.
  apply macro_re_shape. exists (str "SH").
  split; [reflexivity|]. split; [discriminate|]. repeat constructor.
Qed.

Lemma nth_error_sub (data : gostring) (a b i : nat) :
  a <= i -> i < b -> nth_error (sub data a b) (i - a) = nth_error data i.
Proof.
  intros H1 H2. unfold sub. rewrite nth_error_firstn.
  destruct (Nat.ltb_spec (i - a) (b - a)); [|lia].
  rewrite nth_error_skipn. f_equal. lia.
Qed.

(** Every [.SH ] at a line start of the scan is one of the macros of the
    scan, and is a section heading. *)
Lemma scan_reaches_heading (data : gostring) (j : nat) :
  j + 4 <= length data -> sub data j (j + 4) = str ".SH " ->
  forall fuel off,
    off <= j -> scan_bol data off j -> length data <= fuel + off ->
    exists x, In x (macro_seq (S fuel) data (nextmacroOffset data off))
              /\ mstart x = j /\ is_sh x = true.
Proof.
  intros Hj Hsh.
  assert (Mj : matches macro_re (sub data j (j + 4)))
    by (rewrite Hsh; exact heading_is_macro).
  induction fuel as [|fuel IH]; intros off Hoff Hb Hf; [lia|].
  destruct (nextmacroOffset_cases data off) as (_ & Cnone & _).
  destruct (nextmacroOffset_total data off ltac:(lia)) as [[m|] E].
  2:{ exfalso. apply Cnone in E as [_ E].
      exact (E j (j + 4) Hoff Hb ltac:(lia) Hj Mj). }
  pose proof (nextmacroOffset_bounds _ _ _ E) as (B1 & B2 & B3).
  pose proof (nextmacroOffset_some _ _ _ E)
    as (name & Sh & Hne & Fu & Ty & Bm & Left).
  rewrite E. cbn [macro_seq].
  destruct (Nat.lt_trichotomy (mstart m) j) as [Lt|[Eq|Gt]].
  - assert (Me : mend m <= j).
    { destruct (Nat.le_gt_cases (mend m) j) as [H|H]; [exact H|]. exfalso.
      destruct Hb as [->|[_ Hlf]]; [lia|].
      apply (macro_text_no_LF (sub data (mstart m) (mend m))).
      - apply macro_re_shape. exists name. auto.
      - eapply nth_error_In.
        rewrite <- Hlf. apply nth_error_sub; lia. }
    destruct (IH (mend m) Me) as (x & Hin & Hx & Hs); [|lia|].
    + destruct Hb as [->|[_ Hlf]]; [lia|].
      destruct (Nat.eq_dec j (mend m)) as [->|]; [left; reflexivity|].
      right. split; [lia|exact Hlf].
    + exists x. split; [right; exact Hin|auto].
  - exists m. split; [left; reflexivity|]. split; [exact Eq|].
    assert (Len : mend m - j = 4).
    { apply (macro_prefix_unique (skipn j data)).
      - rewrite length_skipn. lia.
      - rewrite length_skipn. lia.
      - rewrite <- Eq. apply macro_re_shape. exists name. auto.
      - replace 4 with (j + 4 - j) by lia. exact Mj. }
    rewrite Eq in Sh. replace (mend m) with (j + 4) in Sh by lia.
    rewrite Hsh in Sh. change (str ".SH ") with ("."%char :: str "SH" ++ [SP]) in Sh.
    injection Sh as Sh.
    apply (app_inj_tail (str "SH") name SP SP) in Sh as [<- _].
    unfold is_sh. rewrite Ty. reflexivity.
  - exfalso. exact (Left j (j + 4) Hoff Gt Hb ltac:(lia) Hj Mj).
Qed.

(** X5.  The text of a section never runs into the next heading: when a
    line at or after the start of the section begins with [.SH ], the loop
    of [getSection] ends the section at that line or before it, without a
    fault. *)
Theorem section_ends_at_next_heading
  (data : gostring) (start j : nat)
  (Hstart : start <= j) (Hj : j + 4 <= length data)
  (Hline : scan_bol data start j)
  (Hsh : sub data j (j + 4) = str ".SH ") :
  exists stop,
    start <= stop /\ stop <= j
    /\ section_text data start = Ok (sub data start stop).
Proof.
  exists (section_stop data start).
  pose proof (section_stop_spec data start ltac:(lia)) as (S1 & S2 & S3 & _).
  cbv zeta in S3.
  split; [exact S1|]. split.
  - destruct (scan_reaches_heading data j Hj Hsh (length data) start
                Hstart Hline ltac:(lia)) as (x & Hin & Hx & Hs).
    destruct (Nat.le_gt_cases (section_stop data start) j) as [H|H];
      [exact H|].
    rewrite (S3 x Hin ltac:(lia)) in Hs. discriminate Hs.
  - apply section_text_ok. lia.
Qed.

Lemma section_ends_at_next_heading_witness :
  exists stop,
    8 <= stop /\ stop <= 27
    /\ section_text page_sample 8 = Ok (sub page_sample 8 stop).
Proof.
  apply (section_ends_at_next_heading page_sample 8 27).
  - vm_compute; lia.
  - vm_compute; lia.
  - right. split; [lia|]. vm_compute. reflexivity.
  - vm_compute. reflexivity.
Defined.

(** ** More about [parse] *)

Lemma findSection_no_heading (d : gostring) (name : regex) :
  no_heading d ->
  findSection d name = inr (mkParseError "Error locating section").
Proof.
  intros H. unfold findSection, FindStringIndex.
  destruct (find_from (section_re name) d 0 true) as [[i j]|] eqn:F;
    [exfalso|reflexivity].
  apply find_from_some in F as (k & n & _ & _ & Hk & Hb & L & _).
  apply lbol_true in Hb.
  apply longest_sound in L as [Hn M]. rewrite length_skipn in Hn.
  apply section_re_shape in M as (sp & w & E & _).
  assert (L3 : 3 <= n).
  { apply (f_equal (@length ascii)) in E.
    rewrite length_firstn, length_skipn, length_app in E.
    simpl in E. lia. }
  apply (H k Hb ltac:(lia)). unfold sub.
  replace (k + 3 - k) with 3 by lia.
  rewrite <- (firstn_skipn n (skipn k d)), E.
  reflexivity.
Qed.

(** X6.  A page none of whose lines begins with [.SH] parses without a
    fault to the record with ["N/A"] for name, description and synopsis and
    with the options it had (none, for the record [NewManPage] makes), in
    both revisions. *)
Theorem parse_without_headings
  (m : ManPage) (d : gostring)
  (Hno : no_heading (strings.ReplaceCR d)) :
  Part003.parse m d
  = Ok (sentinel_page (Path m) (strings.ReplaceCR d) (Opts m))
  /\ GomanGo.parse m d
     = Ok (sentinel_page (Path m) (strings.ReplaceCR d) (Opts m)).
Proof.
  rewrite Part003_parse_fields, GomanGo_parse_fields. cbv zeta.
  unfold section_or_sentinel, Part003.parseOpts, GomanGo.parseOpts.
  cbn [data].
  rewrite !(findSection_no_heading _ _ Hno).
  assert (T : strings.TrimSpace (str "N/A") = str "N/A")
    by (vm_compute; reflexivity).
  assert (F : first_token (str "N/A") = str "N/A")
    by (vm_compute; reflexivity).
  assert (R : strings.TrimRight (str "N/A") name_cutset = str "N/A")
    by (vm_compute; reflexivity).
  rewrite T, F, R. split; reflexivity.
Qed.

Lemma parse_without_headings_witness :
  Part003.parse fresh (str "text")
  = Ok (sentinel_page (Path fresh) (strings.ReplaceCR (str "text"))
          (Opts fresh))
  /\ GomanGo.parse fresh (str "text")
     = Ok (sentinel_page (Path fresh) (strings.ReplaceCR (str "text"))
             (Opts fresh)).
Proof.
  apply (parse_without_headings fresh (str "text")).
  intros i Hb Hi.
  change (length (strings.ReplaceCR (str "text"))) with 4 in Hi.
  destruct i as [|[|i]]; [vm_compute; discriminate| |lia].
  destruct Hb as [F|F]; [discriminate F|vm_compute in F; discriminate F].
Defined.

(** X7.  What a successful [parse] leaves in the record, in both revisions:
    the path is untouched; the stored document is the input without its
    carriage returns, and has none; description and synopsis have no white
    space (in the sense of [unicode.IsSpace]) at either end; and the options
    the record had are all still there, in order, with the new ones after
    them. *)
Theorem parse_keeps
  (m : ManPage) (d : gostring) (r : ManPage)
  (Hparse : Part003.parse m d = Ok r \/ GomanGo.parse m d = Ok r) :
  Path r = Path m
  /\ data r = strings.ReplaceCR d
  /\ ~ In CR (data r)
  /\ strings.space_width (Desc r) = 0
  /\ strings.space_width_rev (rev (Desc r)) = 0
  /\ strings.space_width (Synopsis r) = 0
  /\ strings.space_width_rev (rev (Synopsis r)) = 0
  /\ exists new, Opts r = Opts m ++ new.
Proof.
  destruct Hparse as [H|H].
  - rewrite Part003_parse_fields in H. cbv zeta in H.
    apply Part003_parseOpts_keeps in H as (_ & P & D & S & Da & O).
    cbn [Name Path Desc Synopsis data Opts] in *.
    rewrite P, Da, D, S. unfold section_or_sentinel.
    repeat split; try apply TrimSpace_trimmed;
      [apply ReplaceCR_no_CR | exact O].
  - rewrite GomanGo_parse_fields in H. cbv zeta in H.
    apply GomanGo_parseOpts_keeps in H as (_ & P & D & S & Da & O).
    cbn [Name Path Desc Synopsis data Opts] in *.
    rewrite P, Da, D, S. unfold section_or_sentinel.
    repeat split; try apply TrimSpace_trimmed;
      [apply ReplaceCR_no_CR | exact O].
Qed.

Lemma parse_keeps_witness :
  exists r,
    Part003.parse fresh page_crlf = Ok r
    /\ Path r = Path fresh
    /\ data r = strings.ReplaceCR page_crlf
    /\ ~ In CR (data r)
    /\ strings.space_width (Desc r) = 0
    /\ strings.space_width_rev (rev (Desc r)) = 0
    /\ strings.space_width (Synopsis r) = 0
    /\ strings.space_width_rev (rev (Synopsis r)) = 0
    /\ exists new, Opts r = Opts fresh ++ new.
Proof.
  destruct (Part003.parse fresh page_crlf) as [r| |] eqn:E;
    [|vm_compute in E; discriminate E|vm_compute in E; discriminate E].
  exists r. split; [reflexivity|].
  exact (parse_keeps fresh page_crlf r (or_introl E)).
Defined.


(** An instance: the page [test.1.gz] is loaded and parsed, another name
    gives the error of [os.Open] with the prefix of [NewManPage]. *)
Lemma NewManPage_one_file :
  Part003.NewManPage (one_file page_sample) (str "test.1.gz")
  = (man <- Part003.parse fresh page_sample ;; Ok (inl man))
  /\ Part003.NewManPage (one_file page_sample) (str "x.gz")
     = Ok (inr (str "Error opening man page: open x.gz: no such file or directory"))
  /\ GomanGo.NewManPage (one_file page_sample) (str "x.gz")
     = Ok (Exits (str "Error opening man pageopen x.gz: no such file or directory")).
Proof. repeat split; vm_compute; reflexivity. Qed.


(** ** More about the option parser *)

Lemma Index_nth (s : gostring) (c : ascii) (i : nat) :
  strings.Index s c = Some i -> nth_error s i = Some c.
Proof.
  revert i. induction s as [|x s IH]; simpl; intros i; [discriminate|].
  destruct (Ascii.eqb_spec x c) as [->|_].
  - intros H. inversion H. reflexivity.
  - destruct (strings.Index s c) as [j|]; simpl; [|discriminate].
    intros H. inversion H. simpl. apply IH. reflexivity.
Qed.

Lemma sub_head (s : gostring) (i e : nat) (c : ascii) :
  i < e -> nth_error s i = Some c -> exists t, sub s i e = c :: t.
Proof.
  intros H N. unfold sub.
  destruct (skipn i s) as [|x rest] eqn:E.
  - pose proof (nth_error_skipn i s 0) as K. rewrite E, Nat.add_0_r, N in K.
    discriminate K.
  - pose proof (nth_error_skipn i s 0) as K. rewrite E, Nat.add_0_r, N in K.
    simpl in K. inversion K; subst x.
    destruct (e - i) as [|n] eqn:D; [lia|]. simpl. eauto.
Qed.

Lemma grab_option_emits (opt : gostring) (opts r : list Opt) :
  grab_option opt opts = Ok r ->
  r = opts \/ exists o, r = opts ++ [o] /\ option_wf o.
Proof.
  pose proof (grab_option_cases opt opts) as H. cbv zeta in H.
  destruct (strings.Index (strings.TrimLeft opt [SP]) "-") as [idx|] eqn:I;
    [|rewrite H; intros E; inversion E; auto].
  destruct (strings.IndexAny (skipn idx (strings.TrimLeft opt [SP])) [CR; SP])
    as [rel|]; [|rewrite H; intros E; inversion E; auto].
  destruct (Nat.leb_spec idx (rel + 1)) as [Hle|Hgt];
    rewrite H; [|discriminate].
  intros E. inversion E. right. eexists. split; [reflexivity|].
  split; cbn [oName oDesc]; [|apply Trim_ends].
  destruct (Nat.eq_dec idx (rel + 1)) as [->|Hne].
  - left. unfold sub. rewrite Nat.sub_diag. reflexivity.
  - right. apply sub_head; [lia|]. apply Index_nth. exact I.
Qed.

Lemma Part003_opts_loop_wf (d : gostring) :
  forall fuel mc acc r,
    Part003.opts_loop fuel d mc acc = Ok r ->
    Forall option_wf acc -> Forall option_wf r.
Proof.
  induction fuel as [|fuel IH]; intros mc acc r;
    (destruct mc as [m|]; [|intros E; inversion E; auto]);
    cbn [Part003.opts_loop];
    (destruct (macro_type_eqb (mtype m) sh_macro);
     [intros E; inversion E; auto|]);
    (destruct (negb (macro_type_eqb (mtype m) b_macro
                     || macro_type_eqb (mtype m) ip_macro));
     [intros E; inversion E; auto|]);
    destruct (slice_from d (snd (loc m))) as [rest| |]; try discriminate;
    cbn [bind];
    destruct (Part003.collect (strings.Split rest LF) []) as [opt| |];
    try discriminate; cbn [bind];
    destruct (grab_option opt acc) as [acc'| |] eqn:G; try discriminate;
    cbn [bind]; try discriminate.
  destruct (nextmacro d m) as [mc'| |]; try discriminate. cbn [bind].
  intros E W. apply (IH _ _ _ E).
  apply grab_option_emits in G as [->|(o & -> & Wo)]; [exact W|].
  apply Forall_app. split; [exact W|constructor; [exact Wo|constructor]].
Qed.

Lemma GomanGo_opts_loop_wf (d : gostring) :
  forall fuel mc acc r,
    GomanGo.opts_loop fuel d mc acc = Ok r ->
    Forall option_wf acc -> Forall option_wf r.
Proof.
  induction fuel as [|fuel IH]; intros mc acc r;
    (destruct mc as [m|]; [|intros E; inversion E; auto]);
    cbn [GomanGo.opts_loop];
    (destruct (macro_type_eqb (mtype m) sh_macro);
     [intros E; inversion E; auto|]);
    (destruct (negb (macro_type_eqb (mtype m) b_macro
                     || macro_type_eqb (mtype m) ip_macro));
     [intros E; inversion E; auto|]);
    destruct (slice_from d (snd (loc m))) as [rest| |]; try discriminate;
    cbn [bind];
    destruct (GomanGo.collect (strings.Split rest LF) []) as [opt| |];
    try discriminate; cbn [bind];
    destruct (grab_option opt acc) as [acc'| |] eqn:G; try discriminate;
    cbn [bind]; try discriminate.
  destruct (nextmacro d m) as [mc'| |]; try discriminate. cbn [bind].
  intros E W. apply (IH _ _ _ E).
  apply grab_option_emits in G as [->|(o & -> & Wo)]; [exact W|].
  apply Forall_app. split; [exact W|constructor; [exact Wo|constructor]].
Qed.

Lemma Part003_parseOpts_wf (m r : ManPage) :
  Part003.parseOpts m = Ok r ->
  Forall option_wf (Opts m) -> Forall option_wf (Opts r).
Proof.
  unfold Part003.parseOpts.
  assert (R : forall idx,
            (mc0 <- nextmacroOffset (data m) idx ;;
             opts <- Part003.opts_loop (length (data m)) (data m) mc0 (Opts m) ;;
             Ok (set_Opts m opts)) = Ok r ->
            Forall option_wf (Opts m) -> Forall option_wf (Opts r)).
  { intros idx.
    destruct (nextmacroOffset (data m) idx) as [mc0| |]; try discriminate.
    cbn [bind].
    destruct (Part003.opts_loop (length (data m)) (data m) mc0 (Opts m))
      as [opts| |] eqn:L; try discriminate.
    cbn [bind]. intros E W. inversion E; subst r. cbn [Opts set_Opts].
    exact (Part003_opts_loop_wf _ _ _ _ _ L W). }
  destruct (findSection (data m) OPTIONS_SWITCHES) as [idx|]; [apply R|].
  destruct (findSection (data m) DESCRIPTION) as [idx|]; [apply R|].
  intros E W. inversion E; subst r. exact W.
Qed.

Lemma GomanGo_parseOpts_wf (m r : ManPage) :
  GomanGo.parseOpts m = Ok r ->
  Forall option_wf (Opts m) -> Forall option_wf (Opts r).
Proof.
  unfold GomanGo.parseOpts.
  assert (R : forall idx,
            (mc0 <- nextmacroOffset (data m) idx ;;
             opts <- GomanGo.opts_loop (length (data m)) (data m) mc0 (Opts m) ;;
             Ok (set_Opts m opts)) = Ok r ->
            Forall option_wf (Opts m) -> Forall option_wf (Opts r)).
  { intros idx.
    destruct (nextmacroOffset (data m) idx) as [mc0| |]; try discriminate.
    cbn [bind].
    destruct (GomanGo.opts_loop (length (data m)) (data m) mc0 (Opts m))
      as [opts| |] eqn:L; try discriminate.
    cbn [bind]. intros E W. inversion E; subst r. cbn [Opts set_Opts].
    exact (GomanGo_opts_loop_wf _ _ _ _ _ L W). }
  destruct (findSection (data m) OPTIONS_SWITCHES) as [idx|]; [apply R|].
  destruct (findSection (data m) DESCRIPTION) as [idx|]; [apply R|].
  intros E W. inversion E; subst r. exact W.
Qed.

(** X9.  What holds of every option a successful [parse] emits, in both
    revisions: the token is empty or begins with the dash, and the
    description has no space at either end.  (A record whose options are of
    that kind keeps them so.) *)
Theorem emitted_options_wf
  (m : ManPage) (d : gostring) (r : ManPage)
  (Hparse : Part003.parse m d = Ok r \/ GomanGo.parse m d = Ok r)
  (Hwf : Forall option_wf (Opts m)) :
  Forall option_wf (Opts r).
Proof.
  destruct Hparse as [H|H].
  - rewrite Part003_parse_fields in H. cbv zeta in H.
    exact (Part003_parseOpts_wf _ _ H Hwf).
  - rewrite GomanGo_parse_fields in H. cbv zeta in H.
    exact (GomanGo_parseOpts_wf _ _ H Hwf).
Qed.

Lemma emitted_options_wf_witness :
  exists r, Part003.parse fresh page_mid_dash = Ok r
            /\ Forall option_wf (Opts r).
Proof.
  destruct (Part003.parse fresh page_mid_dash) as [r| |] eqn:E;
    [|vm_compute in E; discriminate E|vm_compute in E; discriminate E].
  exists r. split; [reflexivity|].
  apply (emitted_options_wf fresh page_mid_dash r (or_introl E)).
  constructor.
Defined.

Lemma Part003_collect_eq (lines : list gostring) :
  forall acc,
    Part003.collect lines acc
    = Ok (acc ++ concat (map (cons SP) (leading entry_line lines))).
Proof.
  induction lines as [|line lines IH]; intros acc; cbn [Part003.collect].
  - simpl. rewrite app_nil_r. reflexivity.
  - destruct line as [|c line]; cbn [length Nat.eqb].
    + simpl. rewrite app_nil_r. reflexivity.
    + cbn [index_at nth_error bind leading entry_line].
      destruct (Ascii.eqb c "."); cbn [negb].
      * simpl. rewrite app_nil_r. reflexivity.
      * rewrite IH. cbn [map concat]. rewrite <- app_assoc. reflexivity.
Qed.

Lemma GomanGo_collect_eq (lines : list gostring) :
  forall acc,
    GomanGo.collect lines acc
    = match skipn (length (leading entry_line lines)) lines with
      | [] :: _ => Panic IndexRange
      | _ => Ok (acc ++ concat (map (cons SP) (leading entry_line lines)))
      end.
Proof.
  induction lines as [|line lines IH]; intros acc; cbn [GomanGo.collect].
  - simpl. rewrite app_nil_r. reflexivity.
  - destruct line as [|c line].
    + reflexivity.
    + cbn [index_at nth_error bind leading entry_line].
      destruct (Ascii.eqb c "."); cbn [negb].
      * simpl. rewrite app_nil_r. reflexivity.
      * rewrite IH. cbn [length skipn map concat].
        destruct (skipn (length (leading entry_line lines)) lines)
          as [|[|x l] rest]; try reflexivity;
          rewrite <- app_assoc; reflexivity.
Qed.

(** X10.  The line collection of an entry.  In [part_003] it never faults
    and returns the lines up to the first one that is empty or starts with
    a dot, each with a space before it.  In [src/goman.go] it returns the
    same, except that it faults - index out of range - exactly when the
    first line that is empty or starts with a dot is an empty one. *)
Theorem collect_spec (lines : list gostring) (acc : gostring) :
  let taken := leading entry_line lines in
  let text := acc ++ concat (map (cons SP) taken) in
  Part003.collect lines acc = Ok text
  /\ (GomanGo.collect lines acc = Panic IndexRange <->
      exists post, skipn (length taken) lines = [] :: post)
  /\ (GomanGo.collect lines acc <> Panic IndexRange ->
      GomanGo.collect lines acc = Ok text).
Proof.
  cbv zeta. rewrite Part003_collect_eq, GomanGo_collect_eq.
  split; [reflexivity|].
  destruct (skipn (length (leading entry_line lines)) lines)
    as [|[|x l] rest]; split; try (intros; reflexivity);
    try (intros H; congruence).
  - split; [discriminate|intros [post H]; discriminate H].
  - split; [eauto|reflexivity].
  - split; [discriminate|intros [post H]; discriminate H].
Qed.

(** X11.  What [parseOpts] does with the collected text of an entry, [t]
    being that text without its leading spaces.  Nothing is emitted exactly
    when [t] has no dash, or no space or carriage return from its first dash
    on.  Otherwise, with [idx] the offset of the first dash and [rel] the
    offset, counted from the dash, of the first space or carriage return: if
    [idx <= rel + 1] the option ([t[idx:rel+1]], the rest trimmed of spaces)
    is appended, and if not the slice faults. *)
Theorem grab_option_spec (opt : gostring) (opts : list Opt) :
  let t := strings.TrimLeft opt [SP] in
  (grab_option opt opts = Ok opts <->
     strings.Index t "-" = None \/
     exists idx, strings.Index t "-" = Some idx /\
                 strings.IndexAny (skipn idx t) [CR; SP] = None)
  /\ (forall o,
        grab_option opt opts = Ok (opts ++ [o]) <->
        exists idx rel,
          strings.Index t "-" = Some idx /\
          strings.IndexAny (skipn idx t) [CR; SP] = Some rel /\
          idx <= rel + 1 /\
          o = mkOpt (sub t idx (rel + 1))
                (strings.Trim (skipn (rel + 1) t) [SP]))
  /\ (grab_option opt opts = Panic SliceBounds <->
        exists idx rel,
          strings.Index t "-" = Some idx /\
          strings.IndexAny (skipn idx t) [CR; SP] = Some rel /\
          rel + 1 < idx).
Proof.
  intros t. pose proof (grab_option_cases opt opts) as H.
  cbv zeta in H. fold t in H.
  assert (Ne : forall o, opts ++ [o] <> opts).
  { intros o E. apply (f_equal (@length Opt)) in E.
    rewrite length_app in E. simpl in E. lia. }
  destruct (strings.Index t "-") as [idx|] eqn:I.
  2:{ rewrite H. split; [|split; [intros o|]]; split.
      - auto.
      - reflexivity.
      - intros E. inversion E as [E']. symmetry in E'.
        exfalso. exact (Ne _ E').
      - intros (i & r & F & _). discriminate F.
      - discriminate.
      - intros (i & r & F & _). discriminate F. }
  destruct (strings.IndexAny (skipn idx t) [CR; SP]) as [rel|] eqn:A.
  2:{ rewrite H. split; [|split; [intros o|]]; split.
      - intros _. right. exists idx. split; [reflexivity|exact A].
      - reflexivity.
      - intros E. inversion E as [E']. symmetry in E'.
        exfalso. exact (Ne _ E').
      - intros (i & r & F & G & _). inversion F; subst i.
        rewrite A in G. discriminate G.
      - discriminate.
      - intros (i & r & F & G & _). inversion F; subst i.
        rewrite A in G. discriminate G. }
  destruct (Nat.leb_spec idx (rel + 1)) as [Hle|Hgt]; rewrite H.
  - split; [|split; [intros o|]]; split.
    + intros E. inversion E as [E']. exfalso. exact (Ne _ E').
    + intros [F|(i & F & G)]; [discriminate F|].
      inversion F; subst i. rewrite A in G. discriminate G.
    + intros E. inversion E as [E']. apply app_inv_head in E'.
      inversion E'. exists idx, rel. repeat split; assumption.
    + intros (i & r & F & G & _ & ->).
      inversion F; subst i. rewrite A in G. inversion G; subst r.
      reflexivity.
    + discriminate.
    + intros (i & r & F & G & L).
      inversion F; subst i. rewrite A in G. inversion G; subst r. lia.
  - split; [|split; [intros o|]]; split.
    + discriminate.
    + intros [F|(i & F & G)]; [discriminate F|].
      inversion F; subst i. rewrite A in G. discriminate G.
    + discriminate.
    + intros (i & r & F & G & L & _).
      inversion F; subst i. rewrite A in G. inversion G; subst r. lia.
    + intros _. exists idx, rel. repeat split; assumption.
    + reflexivity.
Qed.

Lemma collect_agree (lines : list gostring) (acc x : gostring) :
  GomanGo.collect lines acc = Ok x -> Part003.collect lines acc = Ok x.
Proof.
  rewrite GomanGo_collect_eq, Part003_collect_eq.
  destruct (skipn (length (leading entry_line lines)) lines)
    as [|[|c l] rest]; intros H; try discriminate H; exact H.
Qed.

Lemma opts_loop_agree (d : gostring) :
  forall fuel mc acc r,
    GomanGo.opts_loop fuel d mc acc = Ok r ->
    Part003.opts_loop fuel d mc acc = Ok r.
Proof.
  induction fuel as [|fuel IH]; intros mc acc r;
    (destruct mc as [m|]; [|intros E; exact E]);
    cbn [GomanGo.opts_loop Part003.opts_loop];
    (destruct (macro_type_eqb (mtype m) sh_macro); [intros E; exact E|]);
    (destruct (negb (macro_type_eqb (mtype m) b_macro
                     || macro_type_eqb (mtype m) ip_macro));
     [intros E; exact E|]);
    destruct (slice_from d (snd (loc m))) as [rest| |]; try discriminate;
    cbn [bind];
    destruct (GomanGo.collect (strings.Split rest LF) []) as [opt| |] eqn:C;
    try discriminate; cbn [bind];
    rewrite (collect_agree _ _ _ C); cbn [bind];
    destruct (grab_option opt acc) as [acc'| |]; try discriminate;
    cbn [bind]; try discriminate.
  destruct (nextmacro d m) as [mc'| |]; try discriminate. cbn [bind].
  apply IH.
Qed.

Lemma parseOpts_agree (m1 m2 r : ManPage) :
  data m1 = data m2 -> Opts m1 = Opts m2 ->
  GomanGo.parseOpts m1 = Ok r ->
  exists r', Part003.parseOpts m2 = Ok r' /\ Opts r' = Opts r.
Proof.
  intros Hd Ho. unfold GomanGo.parseOpts, Part003.parseOpts.
  rewrite <- Hd, <- Ho.
  assert (R : forall idx,
            (mc0 <- nextmacroOffset (data m1) idx ;;
             opts <- GomanGo.opts_loop (length (data m1)) (data m1) mc0
                       (Opts m1) ;;
             Ok (set_Opts m1 opts)) = Ok r ->
            exists r',
              (mc0 <- nextmacroOffset (data m1) idx ;;
               opts <- Part003.opts_loop (length (data m1)) (data m1) mc0
                         (Opts m1) ;;
               Ok (set_Opts m2 opts)) = Ok r' /\ Opts r' = Opts r).
  { intros idx.
    destruct (nextmacroOffset (data m1) idx) as [mc0| |]; try discriminate.
    cbn [bind].
    destruct (GomanGo.opts_loop (length (data m1)) (data m1) mc0 (Opts m1))
      as [opts| |] eqn:L; try discriminate.
    rewrite (opts_loop_agree _ _ _ _ _ L). cbn [bind].
    intros E. inversion E; subst r. eexists. split; reflexivity. }
  destruct (findSection (data m1) OPTIONS_SWITCHES) as [idx|]; [apply R|].
  destruct (findSection (data m1) DESCRIPTION) as [idx|]; [apply R|].
  intros E. inversion E; subst r. exists m2. split; [reflexivity|].
  symmetry. exact Ho.
Qed.

(** X12.  The later revision changes no list of options the earlier one
    produced: whenever [parse] of [src/goman.go] succeeds, [parse] of
    [part_003] succeeds on the same input with the same options in the same
    order (and the same path and document). *)
Theorem revisions_agree_on_options
  (m : ManPage) (d : gostring) (r : ManPage)
  (Hold : GomanGo.parse m d = Ok r) :
  exists r',
    Part003.parse m d = Ok r'
    /\ Opts r' = Opts r /\ Path r' = Path r /\ data r' = data r.
Proof.
  pose proof Hold as K.
  rewrite GomanGo_parse_fields in K. cbv zeta in K.
  pose proof (GomanGo_parseOpts_keeps _ _ K) as (_ & P & _ & _ & Da & _).
  rewrite Part003_parse_fields. cbv zeta.
  match goal with
  | |- exists r', Part003.parseOpts ?m2 = Ok r' /\ _ =>
      destruct (fun Hd Ho => parseOpts_agree _ m2 r Hd Ho K)
        as (r' & E & O); [reflexivity|reflexivity|]
  end.
  exists r'. split; [exact E|]. split; [exact O|].
  apply Part003_parseOpts_keeps in E as (_ & P' & _ & _ & Da' & _).
  cbn [Path data] in *. split; congruence.
Qed.

Lemma revisions_agree_on_options_witness :
  exists r r',
    GomanGo.parse fresh page_plain_dash = Ok r
    /\ Part003.parse fresh page_plain_dash = Ok r'
    /\ Opts r' = Opts r /\ Path r' = Path r /\ data r' = data r.
Proof.
  destruct (GomanGo.parse fresh page_plain_dash) as [r| |] eqn:E;
    [|vm_compute in E; discriminate E|vm_compute in E; discriminate E].
  destruct (revisions_agree_on_options fresh page_plain_dash r E)
    as (r' & H).
  exists r, r'. split; [reflexivity|exact H].
Defined.

Lemma Part003_opts_loop_count (d : gostring) :
  forall fuel mc acc r,
    Part003.opts_loop fuel d mc acc = Ok r ->
    length r <= length acc
                + length (option_run (macro_seq (S fuel) d (Ok mc))).
Proof.
  induction fuel as [|fuel IH]; intros mc acc r;
    (destruct mc as [m|]; [|intros E; inversion E; simpl; lia]);
    cbn [Part003.opts_loop macro_seq option_run]; unfold is_opt_macro;
    (destruct (macro_type_eqb (mtype m) sh_macro);
     [intros E; inversion E; lia|]);
    (destruct (macro_type_eqb (mtype m) b_macro
               || macro_type_eqb (mtype m) ip_macro);
     cbn [negb]; [|intros E; inversion E; simpl; lia]);
    destruct (slice_from d (snd (loc m))) as [rest| |]; try discriminate;
    cbn [bind];
    destruct (Part003.collect (strings.Split rest LF) []) as [opt| |];
    try discriminate; cbn [bind];
    destruct (grab_option opt acc) as [acc'| |] eqn:G; try discriminate;
    cbn [bind]; try discriminate.
  destruct (nextmacro d m) as [mc'| |] eqn:N; try discriminate. cbn [bind].
  intros E. apply IH in E.
  assert (length acc' <= S (length acc)).
  { apply grab_option_emits in G as [->|(o & -> & _)];
      [lia|rewrite length_app; simpl; lia]. }
  cbv iota. cbn [length]. cbn [macro_seq] in E. lia.
Qed.

Lemma GomanGo_opts_loop_count (d : gostring) :
  forall fuel mc acc r,
    GomanGo.opts_loop fuel d mc acc = Ok r ->
    length r <= length acc
                + length (option_run (macro_seq (S fuel) d (Ok mc))).
Proof.
  intros fuel mc acc r H. apply Part003_opts_loop_count.
  apply opts_loop_agree. exact H.
Qed.

Lemma Part003_parseOpts_count (m r : ManPage) :
  Part003.parseOpts m = Ok r ->
  match opts_start (data m) with
  | Some idx =>
      length (Opts r)
      <= length (Opts m)
         + length (option_run
                     (macro_seq (S (length (data m))) (data m)
                        (nextmacroOffset (data m) idx)))
  | None => Opts r = Opts m
  end.
Proof.
  unfold Part003.parseOpts, opts_start.
  assert (R : forall idx,
            (mc0 <- nextmacroOffset (data m) idx ;;
             opts <- Part003.opts_loop (length (data m)) (data m) mc0 (Opts m) ;;
             Ok (set_Opts m opts)) = Ok r ->
            length (Opts r)
            <= length (Opts m)
               + length (option_run
                           (macro_seq (S (length (data m))) (data m)
                              (nextmacroOffset (data m) idx)))).
  { intros idx.
    destruct (nextmacroOffset (data m) idx) as [mc0| |]; try discriminate.
    cbn [bind].
    destruct (Part003.opts_loop (length (data m)) (data m) mc0 (Opts m))
      as [opts| |] eqn:L; try discriminate.
    cbn [bind]. intros E. inversion E; subst r. cbn [Opts set_Opts].
    exact (Part003_opts_loop_count _ _ _ _ _ L). }
  destruct (findSection (data m) OPTIONS_SWITCHES) as [idx|]; [apply R|].
  destruct (findSection (data m) DESCRIPTION) as [idx|]; [apply R|].
  intros E. inversion E. reflexivity.
Qed.

(** X13.  Options come from the macros right after the heading only:
    [parseOpts] scans from the OPTIONS or SWITCHES heading (from the
    DESCRIPTION heading when there is neither, and not at all when there is
    none of the three), and a successful [parse] adds at most one option for
    each [.B ] or [.IP ] macro that the scan yields before its first macro
    of another kind.  When the first macro of the scan is of another kind
    (or there is none) no option is added.  Both revisions. *)
Theorem options_per_macro
  (m : ManPage) (d : gostring) (r : ManPage)
  (Hparse : Part003.parse m d = Ok r \/ GomanGo.parse m d = Ok r) :
  let d' := strings.ReplaceCR d in
  match opts_start d' with
  | Some idx =>
      let run := option_run (macro_seq (S (length d')) d'
                               (nextmacroOffset d' idx)) in
      length (Opts r) <= length (Opts m) + length run
      /\ (run = [] -> Opts r = Opts m)
  | None => Opts r = Opts m
  end.
Proof.
  cbv zeta.
  assert (K : exists m0,
            data m0 = strings.ReplaceCR d /\ Opts m0 = Opts m
            /\ exists r', Part003.parseOpts m0 = Ok r' /\ Opts r' = Opts r).
  { destruct Hparse as [H|H].
    - rewrite Part003_parse_fields in H. cbv zeta in H.
      match type of H with
      | Part003.parseOpts ?m1 = _ =>
          exists m1; split; [reflexivity|split; [reflexivity|]];
          exists r; split; [exact H|reflexivity]
      end.
    - rewrite GomanGo_parse_fields in H. cbv zeta in H.
      match type of H with
      | GomanGo.parseOpts ?m1 = _ =>
          exists m1; split; [reflexivity|split; [reflexivity|]];
          exact (parseOpts_agree m1 m1 r eq_refl eq_refl H)
      end. }
  destruct K as (m0 & Hd & Ho & r' & E & O).
  pose proof (Part003_parseOpts_count _ _ E) as C.
  pose proof (Part003_parseOpts_keeps _ _ E) as (_ & _ & _ & _ & _ & new & N).
  rewrite Hd, Ho, O in *.
  destruct (opts_start (strings.ReplaceCR d)) as [idx|]; [|exact C].
  split; [exact C|].
  intros Z. rewrite Z in C. simpl in C.
  rewrite <- O, N in *. rewrite length_app in C.
  destruct new; [apply app_nil_r|simpl in C; lia].
Qed.

Lemma options_per_macro_witness :
  exists r,
    Part003.parse fresh page_sample = Ok r
    /\ length (Opts r)
       <= length (Opts fresh)
          + length (option_run
                      (macro_seq (S (length (strings.ReplaceCR page_sample)))
                         (strings.ReplaceCR page_sample)
                         (nextmacroOffset (strings.ReplaceCR page_sample) 79))).
Proof.
  destruct (Part003.parse fresh page_sample) as [r| |] eqn:E;
    [|vm_compute in E; discriminate E|vm_compute in E; discriminate E].
  exists r. split; [reflexivity|].
  pose proof (options_per_macro fresh page_sample r (or_introl E)) as H.
  cbv zeta in H.
  assert (S : opts_start (strings.ReplaceCR page_sample) = Some 79)
    by (vm_compute; reflexivity).
  rewrite S in H. exact (proj1 H).
Defined.

(** X14.  How [parse] can end.  In [part_003] it returns a record or stops
    on the slice of the option token - never on an index, and its loops end
    (they stay within the fuel of the embedding, which is the length of the
    document).  In [src/goman.go] it returns a record or stops on that slice
    or on the index of an empty line; its loops end too. *)
Theorem parse_outcomes (m : ManPage) (d : gostring) :
  ((exists r, Part003.parse m d = Ok r)
   \/ Part003.parse m d = Panic SliceBounds)
  /\ ((exists r, GomanGo.parse m d = Ok r)
      \/ GomanGo.parse m d = Panic SliceBounds
      \/ GomanGo.parse m d = Panic IndexRange).
Proof.
  split; [apply Part003_parse_outcome|].
  destruct (GomanGo_parse_outcome m d) as [H|[[|] H]]; auto.
Qed.

(** ** More about [stripmacros] *)

Lemma Join_Split (s : gostring) : Join (strings.Split s LF) LF = s.
Proof.
  induction s as [|c s IH]; [reflexivity|].
  cbn [strings.Split].
  destruct (Split_first s) as (l0 & ls & E & _).
  rewrite E in *.
  destruct (Ascii.eqb_spec c LF) as [->|_].
  - change (Join ([] :: l0 :: ls) LF) with ([] ++ LF :: Join (l0 :: ls) LF).
    rewrite IH. reflexivity.
  - rewrite Join_cons_char, IH. reflexivity.
Qed.

Lemma length_Join (ls : list gostring) (sep : ascii) :
  length (Join ls sep) = list_sum (map (@length ascii) ls) + (length ls - 1).
Proof.
  induction ls as [|l ls IH]; [reflexivity|].
  destruct ls as [|l' ls].
  - simpl. lia.
  - change (Join (l :: l' :: ls) sep) with (l ++ sep :: Join (l' :: ls) sep).
    rewrite length_app. cbn [length]. rewrite IH.
    cbn [map length]. unfold list_sum. cbn [fold_right]. lia.
Qed.

Lemma count_byte_app (c : ascii) (a b : gostring) :
  count_byte c (a ++ b) = count_byte c a + count_byte c b.
Proof. unfold count_byte. rewrite filter_app, length_app. reflexivity. Qed.

Lemma count_Join (ls : list gostring) :
  count_byte LF (Join ls LF)
  = list_sum (map (count_byte LF) ls) + (length ls - 1).
Proof.
  induction ls as [|l ls IH]; [reflexivity|].
  destruct ls as [|l' ls].
  - simpl. lia.
  - change (Join (l :: l' :: ls) LF) with (l ++ LF :: Join (l' :: ls) LF).
    rewrite count_byte_app.
    change (LF :: Join (l' :: ls) LF) with ([LF] ++ Join (l' :: ls) LF).
    rewrite count_byte_app, IH.
    change (count_byte LF [LF]) with 1.
    cbn [map length]. unfold list_sum. cbn [fold_right]. lia.
Qed.

Lemma token_len_le (l : gostring) : token_len l <= length l.
Proof.
  destruct (token_len l) as [|n] eqn:T; [lia|].
  rewrite <- T. apply token_matches. lia.
Qed.

Lemma token_no_LF (l : gostring) :
  count_byte LF (firstn (token_len l) l) = 0.
Proof.
  destruct (token_len l) as [|n] eqn:T; [reflexivity|].
  rewrite <- T.
  destruct (token_matches l ltac:(lia)) as [_ M].
  apply strip_re_shape in M as (u & k & -> & _ & Fu).
  change ("."%char :: u ++ repeat SP k) with (["."%char] ++ u ++ repeat SP k).
  rewrite !count_byte_app.
  assert (F1 : count_byte LF u = 0).
  { clear - Fu. unfold count_byte.
    induction Fu as [|c u Hc _ IH]; [reflexivity|].
    cbn [filter].
    destruct (Ascii.eqb_spec LF c) as [<-|]; [discriminate Hc|exact IH]. }
  assert (F2 : count_byte LF (repeat SP k) = 0).
  { unfold count_byte. induction k; [reflexivity|]. cbn [repeat filter].
    change (Ascii.eqb LF SP) with false. cbn iota. assumption. }
  rewrite F1, F2. reflexivity.
Qed.

Lemma strip_line_count (l : gostring) :
  count_byte LF (strip_line l) = count_byte LF l.
Proof.
  rewrite <- (firstn_skipn (token_len l) l) at 2.
  rewrite count_byte_app, token_no_LF. reflexivity.
Qed.

Lemma strip_lines_length (ls : list gostring) :
  list_sum (map (@length ascii) (map strip_line ls))
  + list_sum (map token_len ls)
  = list_sum (map (@length ascii) ls).
Proof.
  induction ls as [|l ls IH]; [reflexivity|].
  cbn [map]. unfold list_sum in *. cbn [fold_right].
  unfold strip_line at 1. rewrite length_skipn.
  pose proof (token_len_le l). lia.
Qed.

Lemma list_sum_zero (ns : list nat) :
  list_sum ns = 0 -> forall n, In n ns -> n = 0.
Proof.
  induction ns as [|x ns IH]; simpl; [tauto|].
  intros H n [<-|Hn]; [lia|apply IH; [lia|exact Hn]].
Qed.

(** X15.  [stripmacros] removes exactly the macro tokens at the starts of
    the lines: the text gets shorter by the total length of those tokens
    (so it never grows), it keeps all its line feeds, and it is unchanged
    exactly when no line starts with a macro token. *)
Theorem stripmacros_accounting (s : gostring) :
  length (Part003.stripmacros s)
  + list_sum (map token_len (strings.Split s LF))
  = length s
  /\ count_byte LF (Part003.stripmacros s) = count_byte LF s
  /\ (Part003.stripmacros s = s <->
      forall l, In l (strings.Split s LF) -> token_len l = 0).
Proof.
  assert (Len : length (Part003.stripmacros s)
                + list_sum (map token_len (strings.Split s LF))
                = length s).
  { rewrite stripmacros_linewise.
    rewrite <- (Join_Split s) at 3.
    rewrite !length_Join, length_map.
    pose proof (strip_lines_length (strings.Split s LF)). lia. }
  split; [exact Len|]. split.
  - rewrite stripmacros_linewise.
    rewrite <- (Join_Split s) at 2.
    rewrite !count_Join, length_map, map_map. f_equal. f_equal.
    apply map_ext. exact strip_line_count.
  - split.
    + intros E l Hl. rewrite E in Len.
      apply (list_sum_zero (map token_len (strings.Split s LF)));
        [lia|]. apply in_map. exact Hl.
    + intros H. rewrite stripmacros_linewise.
      rewrite <- (Join_Split s) at 2. f_equal.
      rewrite <- (map_id (strings.Split s LF)) at 2.
      apply map_ext_in. intros l Hl. unfold strip_line.
      rewrite (H l Hl). reflexivity.
Qed.

(** ** The renderings *)

Lemma split_at_colon (n1 n2 r1 r2 : gostring) :
  ~ In ":"%char n1 -> ~ In ":"%char n2 ->
  n1 ++ ":"%char :: r1 = n2 ++ ":"%char :: r2 ->
  n1 = n2 /\ r1 = r2.
Proof.
  revert n2. induction n1 as [|c n1 IH]; intros [|c2 n2] H1 H2 E;
    simpl in *.
  - inversion E. auto.
  - inversion E; subst. tauto.
  - inversion E; subst. tauto.
  - inversion E; subst.
    destruct (IH n2) as [-> ->]; auto.
Qed.

(** X16.  The rendering [token: description] of an option can be read back:
    two options whose tokens have no colon and that render the same are the
    same option. *)
Theorem Opt_String_injective
  (o1 o2 : Opt)
  (H1 : ~ In ":"%char (oName o1)) (H2 : ~ In ":"%char (oName o2))
  (Heq : Opt_String o1 = Opt_String o2) :
  o1 = o2.
Proof.
  destruct o1 as [n1 d1], o2 as [n2 d2]. unfold Opt_String in Heq.
  cbn [oName oDesc] in *.
  change (str ": ") with ([":"%char; SP]) in Heq.
  cbn [app] in Heq.
  destruct (split_at_colon _ _ _ _ H1 H2 Heq) as [-> E].
  inversion E. reflexivity.
Qed.

Lemma Opt_String_injective_witness :
  mkOpt (str "-q") (str "quiet: no output")
  = mkOpt (str "-q") (str "quiet: no output").
Proof.
  apply (Opt_String_injective
           (mkOpt (str "-q") (str "quiet: no output"))
           (mkOpt (str "-q") (str "quiet: no output"))).
  - vm_compute. intros [H|[H|[]]]; discriminate H.
  - vm_compute. intros [H|[H|[]]]; discriminate H.
  - reflexivity.
Defined.

Lemma fold_left_lines (opts : list Opt) :
  forall s,
    fold_left (fun acc o => acc ++ (Opt_String o ++ [LF])) opts s
    = s ++ concat (map (fun o => Opt_String o ++ [LF]) opts).
Proof.
  induction opts as [|o opts IH]; intros s; cbn [fold_left map concat].
  - symmetry. apply app_nil_r.
  - rewrite IH, <- app_assoc. reflexivity.
Qed.

(** X17.  The rendering of a page: the options are rendered after the four
    heading lines in the order of the list, one line each, so that adding
    options to a record only adds their lines at the end; and the number of
    line feeds of the rendering is four, one for each option, and those
    inside the fields. *)
Theorem ManPage_String_lines (m : ManPage) (more : list Opt) :
  ManPage_String (set_Opts m (Opts m ++ more))
  = ManPage_String m ++ concat (map (fun o => Opt_String o ++ [LF]) more)
  /\ count_byte LF (ManPage_String m)
     = 4 + count_byte LF (Name m) + count_byte LF (Desc m)
       + count_byte LF (Synopsis m) + length (Opts m)
       + list_sum (map (fun o => count_byte LF (oName o)
                                 + count_byte LF (oDesc o)) (Opts m)).
Proof.
  unfold ManPage_String. cbv zeta. cbn [Opts Name Desc Synopsis set_Opts].
  rewrite !fold_left_lines. split.
  - rewrite map_app, concat_app, !app_assoc. reflexivity.
  - rewrite !count_byte_app.
    change (count_byte LF (str "Name: ")) with 0.
    change (count_byte LF (str "Desc:     ")) with 0.
    change (count_byte LF (str "Synposis: ")) with 0.
    change (count_byte LF (str "Options:")) with 0.
    change (count_byte LF [LF]) with 1.
    assert (L : forall opts,
              count_byte LF (concat (map (fun o => Opt_String o ++ [LF]) opts))
              = length opts
                + list_sum (map (fun o => count_byte LF (oName o)
                                          + count_byte LF (oDesc o)) opts)).
    { induction opts as [|o opts IH]; [reflexivity|].
      cbn [map concat length]. rewrite count_byte_app, IH.
      unfold Opt_String. rewrite !count_byte_app.
      change (count_byte LF (str ": ")) with 0.
      change (count_byte LF [LF]) with 1.
      unfold list_sum. cbn [fold_right]. lia. }
    rewrite L. lia.
Qed.

(** ** The fields of [src/goman.go] are parts of the document *)

Lemma TrimSpace_sub (s : gostring) :
  exists a b, a <= b /\ b <= length s /\ strings.TrimSpace s = sub s a b.
Proof.
  unfold strings.TrimSpace. cbv zeta.
  destruct (trim_runes_skipn strings.space_width (length s) s) as [k Ek].
  rewrite Ek.
  destruct (trim_runes_skipn strings.space_width_rev
              (length (skipn k s)) (rev (skipn k s))) as [k2 Ek2].
  rewrite Ek2, skipn_rev, rev_involutive.
  set (q := length (skipn k s) - k2).
  exists (Nat.min k (length s)),
         (Nat.min k (length s) + Nat.min q (length s - Nat.min k (length s))).
  split; [lia|]. split; [lia|]. unfold sub.
  replace (Nat.min k (length s)
           + Nat.min q (length s - Nat.min k (length s))
           - Nat.min k (length s))
    with (Nat.min q (length s - Nat.min k (length s))) by lia.
  destruct (Nat.le_gt_cases k (length s)) as [Hk|Hk].
  - replace (Nat.min k (length s)) with k by lia.
    destruct (Nat.le_gt_cases q (length s - k)) as [Hq|Hq].
    + replace (Nat.min q (length s - k)) with q by lia. reflexivity.
    + replace (Nat.min q (length s - k)) with (length s - k) by lia.
      rewrite !firstn_all2 by (rewrite length_skipn; lia). reflexivity.
  - rewrite (skipn_all2 s) by lia.
    replace (Nat.min k (length s)) with (length s) by lia.
    rewrite skipn_all. rewrite !firstn_nil. reflexivity.
Qed.

Lemma sub_sub (data : gostring) (i j a b : nat) :
  i <= j -> j <= length data -> a <= b -> b <= j - i ->
  sub (sub data i j) a b = sub data (i + a) (i + b).
Proof.
  intros H1 H2 H3 H4. unfold sub.
  rewrite skipn_firstn_comm, firstn_firstn, skipn_skipn.
  replace (Nat.min (b - a) (j - i - a)) with (b - a) by lia.
  replace (i + b - (i + a)) with (b - a) by lia.
  replace (a + i) with (i + a) by lia. reflexivity.
Qed.

(** X18.  In [src/goman.go], where [stripMacros] has no effect, the text
    [getSection] returns for a section that is found is a part of the
    document taken as it is, macros included: the bytes between two offsets
    that lie after the heading and not after the end of the section. *)
Theorem GomanGo_getSection_verbatim
  (m : ManPage) (name : regex) (start : nat)
  (Hfound : findSection (data m) name = inl start) :
  exists i j,
    start <= i /\ i <= j /\ j <= section_stop (data m) start
    /\ j <= length (data m)
    /\ GomanGo.getSection m name = Ok (sub (data m) i j).
Proof.
  pose proof (findSection_bound _ _ _ Hfound) as Hs.
  pose proof (section_stop_spec (data m) start Hs) as (S1 & S2 & _).
  rewrite GomanGo_getSection_ok, Hfound. unfold section_body.
  destruct (TrimSpace_sub (sub (data m) start (section_stop (data m) start)))
    as (a & b & Hab & Hb & ->).
  assert (L : length (sub (data m) start (section_stop (data m) start))
              = section_stop (data m) start - start).
  { unfold sub. rewrite length_firstn, length_skipn. lia. }
  rewrite L in Hb.
  exists (start + a), (start + b).
  rewrite sub_sub by lia.
  repeat split; lia.
Qed.

Lemma GomanGo_getSection_verbatim_witness :
  exists i j,
    15 <= i /\ i <= j /\ j <= section_stop page_bold_desc 15
    /\ j <= length page_bold_desc
    /\ GomanGo.getSection (set_data fresh page_bold_desc) DESCRIPTION
       = Ok (sub page_bold_desc i j).
Proof.
  apply (GomanGo_getSection_verbatim (set_data fresh page_bold_desc)
           DESCRIPTION 15).
  vm_compute. reflexivity.
Defined.

(** ** Entries with an escaped and with a plain dash *)

Lemma TrimLeft_spaces (k : nat) (t : gostring) :
  (forall c t', t = c :: t' -> c <> SP) ->
  strings.TrimLeft (repeat SP k ++ t) [SP] = t.
Proof.
  intros H. induction k as [|k IH]; simpl.
  - destruct t as [|c t']; [reflexivity|].
    simpl. destruct (Ascii.eqb_spec c SP) as [->|_]; [|reflexivity].
    exfalso. exact (H SP t' eq_refl eq_refl).
  - exact IH.
Qed.

Lemma IndexAny_first (flag rest : gostring) (c : ascii) :
  (forall x, In x flag -> strings.mem x [CR; SP] = false) ->
  strings.mem c [CR; SP] = true ->
  strings.IndexAny (flag ++ c :: rest) [CR; SP] = Some (length flag).
Proof.
  intros H Hc. induction flag as [|x flag IH]; cbn [app strings.IndexAny].
  - rewrite Hc. reflexivity.
  - rewrite (H x (or_introl eq_refl)), IH; [reflexivity|].
    intros y Hy. apply H. right. exact Hy.
Qed.

(** X19.  The entry of the manual pages, [\-flag description]: when the
    collected text of an entry is, after any spaces, a backslash, the dash,
    a flag without space or carriage return, a space and the rest, the
    option emitted has the token [-flag] and the rest, trimmed of spaces, as
    its description - what the specification describes. *)
Theorem escaped_entry_option
  (k : nat) (flag rest : gostring) (opts : list Opt)
  (Hflag : forall x, In x flag -> strings.mem x [CR; SP] = false) :
  grab_option (repeat SP k ++ "\"%char :: "-"%char :: flag ++ SP :: rest) opts
  = Ok (opts ++ [mkOpt ("-"%char :: flag) (strings.Trim rest [SP])])
  /\ spec_option (repeat SP k ++ "\"%char :: "-"%char :: flag ++ SP :: rest)
     = Some (mkOpt ("-"%char :: flag) (strings.Trim rest [SP])).
Proof.
  set (t := "\"%char :: "-"%char :: flag ++ SP :: rest).
  assert (T : strings.TrimLeft (repeat SP k ++ t) [SP] = t).
  { apply TrimLeft_spaces. intros c t' E. inversion E. discriminate. }
  assert (I : strings.Index t "-" = Some 1) by reflexivity.
  assert (A : strings.IndexAny (skipn 1 t) [CR; SP] = Some (S (length flag))).
  { unfold t. cbn [skipn strings.IndexAny].
    change (strings.mem "-" [CR; SP]) with false. cbn iota.
    rewrite (IndexAny_first flag rest SP Hflag eq_refl). reflexivity. }
  assert (S1 : firstn (S (length flag)) (skipn 1 t) = "-"%char :: flag).
  { unfold t. cbn [skipn firstn]. f_equal.
    rewrite firstn_app, firstn_all, Nat.sub_diag. cbn [firstn].
    apply app_nil_r. }
  assert (S2 : skipn (1 + S (length flag)) t = SP :: rest).
  { unfold t. cbn [Nat.add skipn].
    rewrite skipn_app, skipn_all, Nat.sub_diag. reflexivity. }
  assert (Tr : strings.Trim (SP :: rest) [SP] = strings.Trim rest [SP])
    by reflexivity.
  split.
  - pose proof (grab_option_cases (repeat SP k ++ t) opts) as H.
    cbv zeta in H. rewrite T, I, A in H.
    replace (1 <=? S (length flag) + 1) with true in H
      by (symmetry; apply Nat.leb_le; lia).
    rewrite H. unfold sub.
    replace (S (length flag) + 1 - 1) with (S (length flag)) by lia.
    replace (S (length flag) + 1) with (1 + S (length flag)) by lia.
    rewrite S1, S2, Tr. reflexivity.
  - unfold spec_option. rewrite T, I, A, S1, S2, Tr. reflexivity.
Qed.

Lemma escaped_entry_option_witness :
  grab_option (repeat SP 1 ++ "\"%char :: "-"%char :: str "q" ++ SP
                 :: str "q is an option") []
  = Ok ([] ++ [mkOpt ("-"%char :: str "q")
                 (strings.Trim (str "q is an option") [SP])]).
Proof.
  apply (escaped_entry_option 1 (str "q") (str "q is an option") []).
  intros x [<-|[]]. reflexivity.
Defined.

(** X20.  The entry with a plain dash, [-flag description]: when the text
    of an entry is, after any spaces, the dash, a flag without space or
    carriage return, a space and the rest, the token emitted is [-flag]
    followed by that space (the specification's token is [-flag]); the
    description is the rest, trimmed of spaces. *)
Theorem plain_entry_option
  (k : nat) (flag rest : gostring) (opts : list Opt)
  (Hflag : forall x, In x flag -> strings.mem x [CR; SP] = false) :
  grab_option (repeat SP k ++ "-"%char :: flag ++ SP :: rest) opts
  = Ok (opts ++ [mkOpt ("-"%char :: flag ++ [SP]) (strings.Trim rest [SP])])
  /\ spec_option (repeat SP k ++ "-"%char :: flag ++ SP :: rest)
     = Some (mkOpt ("-"%char :: flag) (strings.Trim rest [SP])).
Proof.
  set (t := "-"%char :: flag ++ SP :: rest).
  assert (T : strings.TrimLeft (repeat SP k ++ t) [SP] = t).
  { apply TrimLeft_spaces. intros c t' E. inversion E. discriminate. }
  assert (I : strings.Index t "-" = Some 0) by reflexivity.
  assert (A : strings.IndexAny (skipn 0 t) [CR; SP] = Some (S (length flag))).
  { unfold t. cbn [skipn strings.IndexAny].
    change (strings.mem "-" [CR; SP]) with false. cbn iota.
    rewrite (IndexAny_first flag rest SP Hflag eq_refl). reflexivity. }
  assert (S0 : firstn (S (length flag)) t = "-"%char :: flag).
  { unfold t. cbn [firstn]. f_equal.
    rewrite firstn_app, firstn_all, Nat.sub_diag. cbn [firstn].
    apply app_nil_r. }
  assert (S1 : firstn (S (length flag) + 1) t = "-"%char :: flag ++ [SP]).
  { unfold t. replace (S (length flag) + 1) with (S (length flag + 1)) by lia.
    cbn [firstn]. f_equal.
    rewrite firstn_app.
    rewrite firstn_all2 by lia.
    replace (length flag + 1 - length flag) with 1 by lia. reflexivity. }
  assert (S2 : skipn (S (length flag)) t = SP :: rest).
  { unfold t. cbn [skipn].
    rewrite skipn_app, skipn_all, Nat.sub_diag. reflexivity. }
  assert (S3 : skipn (S (length flag) + 1) t = rest).
  { replace (S (length flag) + 1) with (1 + S (length flag)) by lia.
    rewrite <- skipn_skipn, S2. reflexivity. }
  assert (Tr : strings.Trim (SP :: rest) [SP] = strings.Trim rest [SP])
    by reflexivity.
  split.
  - pose proof (grab_option_cases (repeat SP k ++ t) opts) as H.
    cbv zeta in H. rewrite T, I, A in H.
    cbn [Nat.leb] in H. rewrite H. unfold sub.
    rewrite Nat.sub_0_r. change (skipn 0 t) with t.
    rewrite S1, S3. reflexivity.
  - unfold spec_option. rewrite T, I, A.
    change (skipn 0 t) with t. change (0 + S (length flag)) with (S (length flag)).
    rewrite S0, S2, Tr. reflexivity.
Qed.

Lemma plain_entry_option_witness :
  grab_option (repeat SP 1 ++ "-"%char :: str "q" ++ SP
                 :: str "q is an option") []
  = Ok ([] ++ [mkOpt ("-"%char :: str "q" ++ [SP])
                 (strings.Trim (str "q is an option") [SP])]).
Proof.
  apply (plain_entry_option 1 (str "q") (str "q is an option") []).
  intros x [<-|[]]. reflexivity.
Defined.

(** ** Where the two revisions return the same section *)

Lemma stripmacros_fixed (s : gostring) :
  (forall l, In l (strings.Split s LF) -> token_len l = 0) ->
  Part003.stripmacros s = s.
Proof.
  intros H. rewrite stripmacros_linewise.
  rewrite <- (Join_Split s) at 2. f_equal.
  rewrite <- (map_id (strings.Split s LF)) at 2.
  apply map_ext_in. intros l Hl. unfold strip_line.
  rewrite (H l Hl). reflexivity.
Qed.

(** X21.  [getSection] of the two revisions: for a name whose section is
    not found both return ["N/A"]; for a section none of whose lines starts
    with a macro token both return the same text.  (They differ only in
    the tokens [part_003] strips.) *)
Theorem revisions_agree_on_section
  (m : ManPage) (name : regex)
  (Hplain : forall start l,
      findSection (data m) name = inl start ->
      In l (strings.Split (section_body (data m) start) LF) ->
      token_len l = 0) :
  Part003.getSection m name = GomanGo.getSection m name.
Proof.
  rewrite Part003_getSection_ok, GomanGo_getSection_ok.
  destruct (findSection (data m) name) as [start|err]; [|reflexivity].
  rewrite stripmacros_fixed; [reflexivity|].
  intros l Hl. exact (Hplain start l eq_refl Hl).
Qed.

Lemma revisions_agree_on_section_witness :
  Part003.getSection (set_data fresh page_sample) NAME
  = GomanGo.getSection (set_data fresh page_sample) NAME.
Proof.
  apply (revisions_agree_on_section (set_data fresh page_sample) NAME).
  intros start l H Hin.
  assert (F : findSection (data (set_data fresh page_sample)) NAME = inl 8)
    by (vm_compute; reflexivity).
  rewrite F in H. inversion H; subst start.
  vm_compute in Hin.
  destruct Hin as [<-|[<-|[<-|[]]]]; reflexivity.
Defined.
